(** * locomote-sh/pipeline: record parser, hook registry, transformers,
      step results and pipelines

    A shallow embedding of the five source files of the repository
    (the record parser, [lib/hooks.js], [lib/transformers.js], the step
    result and [lib/pipeline.js]) together with the properties the design
    document states about them. *)

From Stdlib Require Import ZArith Strings.String Strings.Ascii Strings.Byte Lia.
From stdpp Require Import base option list gmap strings pretty.

Local Open Scope string_scope.
Local Open Scope list_scope.

(** ** The JavaScript values the code handles *)

Module JS.

(** An [Error] object, reduced to the two properties the code reads. *)
Record Error := mkError { code : string; message : string }.

(** What a stream hands to a ['data'] listener, or what a caller writes to
    a stream: a string or a [Buffer].  [Absent] is the argument of a
    listener that is called without one ([undefined]), as ['close'] does.
    A string is identified with its UTF-8 bytes. *)
Inductive chunk :=
| Absent
| Str (s : string)
| Buf (b : list byte).

(** [if( data )]: [undefined] and the empty string are falsy, every
    [Buffer] object is truthy. *)
Definition truthy (data : chunk) : bool :=
  match data with
  | Absent => false
  | Str s => negb (String.eqb s "")
  | Buf _ => true
  end.

(** [Buffer.from( data )] for a string, the buffer itself otherwise. *)
Definition bytes (data : chunk) : list byte :=
  match data with
  | Absent => []
  | Str s => list_byte_of_string s
  | Buf b => b
  end.

(** [buffer[j]] as a JavaScript number. *)
Definition byteZ (b : byte) : Z := Z.of_N (Byte.to_N b).

(** [buffer.slice( i, j )]: the bytes from index [i] up to, and not
    including, index [j]. *)
Definition slice (buffer : list byte) (i j : nat) : list byte :=
  take (j - i) (drop i buffer).

(** [data.length] of a chunk. *)
Definition chunk_length (data : chunk) : nat :=
  match data with
  | Absent => 0
  | Str s => String.length s
  | Buf b => length b
  end.

(** The values that travel through hooks and transformer operations.
    Numbers are the integers JavaScript prints in plain decimal digits;
    an object is the list of its own properties in enumeration order. *)
#[warnings="-register-all"]
Inductive val :=
| VUndefined
| VNull
| VBool (b : bool)
| VNumber (n : Z)
| VString (s : string)
| VArray (items : list val)
| VObject (props : list (string * val)).

(** Truthiness of a value, as [vars ? ... : ...] tests it. *)
Definition truthy_value (v : val) : bool :=
  match v with
  | VUndefined | VNull => false
  | VBool b => b
  | VNumber n => negb (n =? 0)%Z
  | VString s => negb (String.eqb s "")
  | VArray _ | VObject _ => true
  end.

(** [Array.isArray]. *)
Definition isArray (v : val) : bool :=
  match v with
  | VArray _ => true
  | _ => false
  end.

(** What an awaited call gives: a value, or the error it threw or
    rejected with. *)
Inductive result (A : Type) :=
| Ok (v : A)
| Err (e : Error).
Arguments Ok {A} v.
Arguments Err {A} e.

Definition bind {A B} (r : result A) (k : A -> result B) : result B :=
  match r with
  | Ok v => k v
  | Err e => Err e
  end.

Definition dquote : string := String (ascii_of_N 34) EmptyString.
Definition LF : string := String (ascii_of_N 10) EmptyString.

Definition hexdigit (n : N) : ascii :=
  default "0"%char (list_ascii_of_string "0123456789abcdef" !! N.to_nat n).

(** One character of a quoted JSON string. *)
Definition quote_char (c : ascii) : string :=
  let n := N_of_ascii c in
  if (n =? 8)%N then "\b"
  else if (n =? 9)%N then "\t"
  else if (n =? 10)%N then "\n"
  else if (n =? 12)%N then "\f"
  else if (n =? 13)%N then "\r"
  else if (n =? 34)%N then "\" +:+ dquote
  else if (n =? 92)%N then "\\"
  else if (n <? 32)%N
       then "\u00" +:+ String (hexdigit (n / 16)) (String (hexdigit (n mod 16)) EmptyString)
  else String c EmptyString.

Fixpoint quote_chars (s : string) : string :=
  match s with
  | EmptyString => EmptyString
  | String c s' => quote_char c +:+ quote_chars s'
  end.

Definition QuoteJSONString (s : string) : string :=
  dquote +:+ quote_chars s +:+ dquote.

Fixpoint join (sep : string) (parts : list string) : string :=
  match parts with
  | [] => ""
  | [p] => p
  | p :: ps => p +:+ sep +:+ join sep ps
  end.

(** [JSON.stringify( v )]: [None] is the result [undefined]. An
    [undefined] element of an array is written [null], an [undefined]
    property of an object is left out. *)
Fixpoint JSON_stringify (v : val) : option string :=
  match v with
  | VUndefined => None
  | VNull => Some "null"
  | VBool b => Some (if b then "true" else "false")
  | VNumber n => Some (pretty n)
  | VString s => Some (QuoteJSONString s)
  | VArray items =>
      Some ("[" +:+ join "," (map (fun item => default "null" (JSON_stringify item)) items)
                +:+ "]")
  | VObject props =>
      Some ("{" +:+ join ","
              (omap (fun kv => match JSON_stringify (snd kv) with
                               | Some s => Some (QuoteJSONString (fst kv) +:+ ":" +:+ s)
                               | None => None
                               end) props)
                +:+ "}")
  end.

End JS.

(** ** The record parser ([fieldParser], [lineParser]) *)

Module Parsers.
Import JS.

Definition NEWLINE : Z := 0x0A.

(** How one call [process( line )] ends: it returns (a value, or a promise
    that fulfils), it returns a promise that rejects, or it throws. *)
Inductive outcome :=
| Returns
| Rejects (e : Error)
| Throws (e : Error).

(** A callback registered with [.then] on the [pending] chain. *)
Inductive reaction :=
| OnProcess (line : string)   (* () => { try { return process( line ) } catch ... } *)
| OnReject (e : Error)        (* () => reject( e ) *)
| OnResolve.                  (* () => resolve() *)

(** The promise [fieldParser] returns. *)
Inductive promise :=
| Unsettled
| Resolved
| Rejected (e : Error).

(** [resolve()] and [reject( e )] settle a promise once; later calls are
    ignored. *)
Definition settle (p new : promise) : promise :=
  match p with
  | Unsettled => new
  | _ => p
  end.

Section fieldParser.
(** The caller's [process] function, with whatever state [H] it keeps. *)
Context {H : Type}.
Variable process : string -> H -> outcome * H.
Variable separator : Z.

(** The variables the closure [append] shares with the callbacks:
    [buffer], [processing], and the [pending] chain, kept as the list of
    callbacks registered on it that have not run yet, in registration
    order, with [broken] holding the rejection of the promise the first of
    them waits for, if it was rejected.  [handler] is the state of
    [process], [calls] records the arguments [process] was called with,
    [returned] is the promise handed to the caller. *)
Record parser := mkParser {
  buffer : list byte;
  processing : bool;
  pending : list reaction;
  broken : option Error;
  handler : H;
  calls : list string;
  returned : promise
}.

Definition start (h : H) : parser :=
  {| buffer := []; processing := true; pending := []; broken := None;
     handler := h; calls := []; returned := Unsettled |}.

(** The [for] loop of [append]: [rest] is the part of [buffer] from index
    [j] on, [i] the start of the current line, [lines] the lines cut so
    far.  Returns the final [i] and the lines. *)
Fixpoint scan (isComplete : bool) (buffer : list byte) (end_ : Z)
    (rest : list byte) (i j : nat) (lines : list string) : nat * list string :=
  match rest with
  | [] => (i, lines)
  | b :: rest' =>
      if (byteZ b =? separator)%Z || (isComplete && (Z.of_nat j =? end_)%Z)
      then scan isComplete buffer end_ rest' (S j) (S j)
             (lines ++ [string_of_list_byte (slice buffer i j)])
      else scan isComplete buffer end_ rest' i (S j) lines
  end.

(** [append( data )], the listener of both ['data'] and ['close']. *)
Definition append (data : chunk) (st : parser) : parser :=
  if negb (processing st) then st
  else
    let buffer := if truthy data then buffer st ++ bytes data else buffer st in
    let isComplete := negb (truthy data) in
    let end_ := (Z.of_nat (length buffer) - 1)%Z in
    let '(i, lines) := scan isComplete buffer end_ buffer 0 0 [] in
    let pending := pending st ++ (OnProcess <$> lines) in
    if isComplete
    then {| buffer := buffer; processing := false;
            pending := pending ++ [OnResolve]; broken := broken st;
            handler := handler st; calls := calls st; returned := returned st |}
    else {| buffer := drop i buffer; processing := processing st;
            pending := pending; broken := broken st;
            handler := handler st; calls := calls st; returned := returned st |}.

(** One turn of the promise job queue: the oldest callback on the chain
    runs, or is passed over when the promise it waits for was rejected
    (the callbacks are registered without a rejection handler, so a
    rejection travels down the chain). *)
Definition microtask (st : parser) : parser :=
  match pending st with
  | [] => st
  | r :: rest =>
      match broken st with
      | Some _ =>
          {| buffer := buffer st; processing := processing st; pending := rest;
             broken := broken st; handler := handler st; calls := calls st;
             returned := returned st |}
      | None =>
          match r with
          | OnProcess line =>
              let '(o, h) := process line (handler st) in
              match o with
              | Returns =>
                  {| buffer := buffer st; processing := processing st;
                     pending := rest; broken := None; handler := h;
                     calls := calls st ++ [line]; returned := returned st |}
              | Rejects e =>
                  {| buffer := buffer st; processing := processing st;
                     pending := rest; broken := Some e; handler := h;
                     calls := calls st ++ [line]; returned := returned st |}
              | Throws e =>
                  {| buffer := buffer st; processing := false;
                     pending := rest ++ [OnReject e]; broken := None; handler := h;
                     calls := calls st ++ [line]; returned := returned st |}
              end
          | OnReject e =>
              {| buffer := buffer st; processing := processing st; pending := rest;
                 broken := None; handler := handler st; calls := calls st;
                 returned := settle (returned st) (Rejected e) |}
          | OnResolve =>
              {| buffer := buffer st; processing := processing st; pending := rest;
                 broken := None; handler := handler st; calls := calls st;
                 returned := settle (returned st) Resolved |}
          end
      end
  end.

(** Run the job queue until no callback is left.  A callback adds at most
    one other (the [reject] of a [catch]), so twice the length of the
    chain is enough turns. *)
Definition drain (st : parser) : parser :=
  Nat.iter (2 * length (pending st)) microtask st.

(** The stream emits [events] one after the other; after each of them the
    job queue runs for the number of turns [ticks] gives (none when
    [ticks] is used up), and to the end after the last one. *)
Fixpoint deliver (ticks : list nat) (events : list chunk) (st : parser) : parser :=
  match events with
  | [] => drain st
  | data :: events' =>
      deliver (tail ticks) events' (Nat.iter (hd 0 ticks) microtask (append data st))
  end.

(** The complete records of [input], the bytes in front of each
    separator, [cur] being what was read of the first, and the bytes
    that follow the last separator. *)
Fixpoint cut (cur input : list byte) : list (list byte) * list byte :=
  match input with
  | [] => ([], cur)
  | b :: input' =>
      if (byteZ b =? separator)%Z
      then let '(rs, t) := cut [] input' in (cur :: rs, t)
      else cut (cur ++ [b]) input'
  end.

(** What the loop makes of the bytes [t] that follow the last separator
    when the input is complete: nothing when there are none, else one
    line, [buffer.slice( i, end )], which stops in front of the last
    byte. *)
Definition last_record (t : list byte) : list (list byte) :=
  match t with
  | [] => []
  | _ => [removelast t]
  end.

(** The lines [append] cuts from a whole input. *)
Definition records (input : list byte) : list string :=
  let '(rs, t) := cut [] input in
  string_of_list_byte <$> (rs ++ last_record t).

(** The parser when all of [input] and the ['close'] have arrived and no
    callback has run yet. *)
Definition loaded (h : H) (input : list byte) : parser :=
  {| buffer := snd (cut [] input); processing := false;
     pending := (OnProcess <$> records input) ++ [OnResolve];
     broken := None; handler := h; calls := []; returned := Unsettled |}.

(** The turns of the job queue a chain needs: one for each callback,
    and one more for each call of [process], which may add a [reject]. *)
Fixpoint turns (rs : list reaction) : nat :=
  match rs with
  | [] => 0
  | OnProcess _ :: rs' => 2 + turns rs'
  | _ :: rs' => 1 + turns rs'
  end.

(** A [process] that reports its errors through the promise it returns,
    as an async function does. *)
Definition never_throws : Prop :=
  forall line h e, fst (process line h) <> Throws e.

(** A [process] that succeeds on every record. *)
Definition always_returns : Prop :=
  forall line h, fst (process line h) = Returns.

(** [process] called on [lines] one after the other, each call made when
    the promise of the one before it has fulfilled and none after a call whose
    promise was rejected: the lines it is called on, whether every call
    fulfilled, and the state of [process] at the end. *)
Fixpoint replay (lines : list string) (h : H) : list string * bool * H :=
  match lines with
  | [] => ([], true, h)
  | line :: lines' =>
      match process line h with
      | (Returns, h') =>
          let '(called, ok, h'') := replay lines' h' in (line :: called, ok, h'')
      | (_, h') => ([line], false, h')
      end
  end.

(** A stream that emits ['data'] for each of [chunks] and then ['close']. *)
Definition emits (chunks : list chunk) : list chunk := chunks ++ [Absent].

Definition fieldParser (ticks : list nat) (chunks : list chunk) (h : H) : parser :=
  deliver ticks (emits chunks) (start h).

End fieldParser.

Definition lineParser {H} (process : string -> H -> outcome * H) :=
  fieldParser process NEWLINE.

(** Three [process] functions to run the parser with: one that takes
    every record, and two that count their calls and fail at the second,
    by throwing and by returning a rejected promise. *)
Definition accept (line : string) (h : unit) : outcome * unit := (Returns, h).

Definition boom : Error := {| code := ""; message := "boom" |}.

Definition throws_on_second (line : string) (count : nat) : outcome * nat :=
  (if (count =? 1)%nat then Throws boom else Returns, S count).

Definition rejects_on_second (line : string) (count : nat) : outcome * nat :=
  (if (count =? 1)%nat then Rejects boom else Returns, S count).

(** The separator [,]. *)
Definition COMMA : Z := 0x2C.

End Parsers.

(** ** The hook registry ([lib/hooks.js]) *)

Module Hooks.
Import JS.

(** A hook: [( value, vars ) -> value'], awaited by its caller. *)
Definition hook : Type := val -> val -> result val.

(** The object [Hooks]: name space, then [<stage>-<name>], then the hooks
    in registration order. *)
Abbreviation registry := (gmap string (gmap string (list hook))).

(** The template literal [`${stage}-${name}`]. *)
Definition hook_id (stage name : string) : string := stage +:+ "-" +:+ name.

Definition registerHook (ns stage name : string) (h : hook) (Hooks : registry)
    : registry :=
  let hookNS := default ∅ (Hooks !! ns) in
  let id := hook_id stage name in
  match hookNS !! id with
  | Some hooks => <[ns := <[id := hooks ++ [h]]> hookNS]> Hooks
  | None => <[ns := <[id := [h]]> hookNS]> Hooks
  end.

(** The function [getCallHooks] returns.  The third kind closes over the
    array [hooks], which [registerHook] extends in place: it is kept as
    the place of that array in the registry and read when it is called. *)
Inductive callable :=
| Identity                      (* value => value *)
| Single (h : hook)             (* hooks[0] *)
| Sequence (ns id : string).    (* async function( value, vars ) { for( let hook of hooks ) ... } *)

Definition getCallHooks (Hooks : registry) (ns stage name : string) : callable :=
  match Hooks !! ns ≫= (fun hooks => hooks !! hook_id stage name) with
  | None => Identity
  | Some [h] => Single h
  | Some _ => Sequence ns (hook_id stage name)
  end.

(** [for( let hook of hooks ) { value = await hook( value, vars ) }]. *)
Fixpoint run_hooks (hooks : list hook) (value vars : val) : result val :=
  match hooks with
  | [] => Ok value
  | h :: hooks' => bind (h value vars) (fun value' => run_hooks hooks' value' vars)
  end.

(** [await c( value, vars )] with the registry as it is at the call. *)
Definition call (Hooks : registry) (c : callable) (value vars : val) : result val :=
  match c with
  | Identity => Ok value
  | Single h => h value vars
  | Sequence ns id =>
      run_hooks (default [] (Hooks !! ns ≫= (fun hooks => hooks !! id))) value vars
  end.

(** A hook to try the registry with: it appends [t] to a string. *)
Definition suffix (t : string) : hook :=
  fun value vars =>
    match value with
    | VString s => Ok (VString (s +:+ t))
    | _ => Ok value
    end.

(** A hook that fails. *)
Definition failing (e : Error) : hook := fun value vars => Err e.

(** The hooks registered under a key, oldest first. *)
Definition registered (Hooks : registry) (ns stage name : string) : list hook :=
  default [] (Hooks !! ns ≫= (fun hooks => hooks !! hook_id stage name)).

End Hooks.

(** ** The transformers ([lib/transformers.js]) *)

Module Transformers.
Import JS Parsers Hooks.

(** The [opts] argument; [None] is a property that is not given. *)
Record options := mkOptions {
  multiValue : option bool;
  separator : option Z
}.

(** Modelled from the spec: [lib/transformers.js] imports [recordParser]
    from the parser module, which defines no function of that name.  The
    Record Parser of the design document, [parse( inputStream, process,
    separatorByte )], is the function that module defines as [fieldParser]. *)
Definition recordParser {H} := @fieldParser H.

(** [typeof item !== 'string'] decides between the text itself and
    [JSON.stringify( item )]. *)
Definition text (item : val) : string :=
  match item with
  | VString s => s
  | _ => default "" (JSON_stringify item)
  end.

(** The two [outs.write] calls for one value. *)
Definition write_line (item : val) : list chunk := [Str (text item); Str LF].

(** The body of [result.forEach]. *)
Definition write_item (item : val) : list chunk :=
  match item with
  | VUndefined => []
  | _ => write_line item
  end.

(** What [process] writes to [outs] for a result of the post hooks. *)
Definition write_result (multiValue : bool) (result : val) : list chunk :=
  match result with
  | VUndefined => []
  | _ =>
      if multiValue && isArray result
      then match result with
           | VArray items => concat (map write_item items)
           | _ => []
           end
      else write_line result
  end.

Section recordTransformer.
Variable Hooks : registry.
Variable op : val -> result val.
Variables (preHooks postHooks : callable) (vars : val) (multiValue_ : bool).

(** The hooks and the operation of one record, in the order [process]
    awaits them. *)
Definition process_result (line : string) : result val :=
  bind (call Hooks preHooks (VString line) vars) (fun input =>
  bind (op input) (fun result =>
  call Hooks postHooks result vars)).

(** The [async function process( line )]; its state is what was written
    to [outs].  It is an async function: an error inside it rejects the
    promise it returns. *)
Definition process (line : string) (outs : list chunk) : outcome * list chunk :=
  match process_result line with
  | Ok result => (Returns, outs ++ write_result multiValue_ result)
  | Err e => (Rejects e, outs)
  end.
End recordTransformer.

Definition recordTransformer (Hooks : registry) (ticks : list nat)
    (ins outs : list chunk) (op : val -> result val)
    (ns name : string) (vars : val) (opts : options) : parser :=
  let multiValue := default false (multiValue opts) in
  let separator := default 0x0%Z (separator opts) in
  let preHooks := getCallHooks Hooks ns "pre" name in
  let postHooks := getCallHooks Hooks ns "post" name in
  recordParser (process Hooks op preHooks postHooks vars multiValue) separator
    ticks ins outs.

Definition lineTransformer (Hooks : registry) (ticks : list nat)
    (ins outs : list chunk) (op : val -> result val)
    (ns name : string) (vars : val) (multiValue : bool) : parser :=
  let separator := NEWLINE in
  recordTransformer Hooks ticks ins outs op ns name vars
    {| multiValue := Some multiValue; separator := Some separator |}.

(** Operations to run a transformer with: the first returns its input,
    the second the array [[ "x", { "y": 1 } ]], the third an array with an
    [undefined] element. *)
Definition echo : val -> result val := fun input => Ok input.

Definition two_values : val -> result val :=
  fun input => Ok (VArray [VString "x"; VObject [("y", VNumber 1)]]).

Definition with_undefined : val -> result val :=
  fun input => Ok (VArray [input; VUndefined; VNull]).

(** An operation that fails on the record [s] and returns any other input. *)
Definition fails_on (s : string) : val -> result val :=
  fun input =>
    match input with
    | VString t => if String.eqb s t then Err boom else Ok input
    | _ => Ok input
    end.

(** The options of [lineTransformer] without [multiValue], and an input of
    two lines that comes in two chunks. *)
Definition line_options : options :=
  {| multiValue := Some false; separator := Some NEWLINE |}.

Definition two_lines : list chunk := [Str ("a" +:+ LF +:+ "b"); Str LF].

Definition three_lines : list chunk :=
  [Str ("a" +:+ LF +:+ "b" +:+ LF +:+ "c" +:+ LF)].

(** The text on the output stream. *)
Definition written (outs : list chunk) : string :=
  string_of_list_byte (concat (bytes <$> outs)).

(** [item !== undefined]. *)
Definition defined (item : val) : bool :=
  match item with
  | VUndefined => false
  | _ => true
  end.

(** The serialization policy in the words of the design document: nothing
    for [undefined], a string as it is, any other value JSON-encoded. *)
Definition line_of (v : val) : option string :=
  match v with
  | VUndefined => None
  | VString s => Some s
  | _ => JSON_stringify v
  end.

(** The output lines for one result, in the words of the design document:
    under [multiValue] a sequence gives the lines of its elements, each
    serialized by the same rule; any other result gives its own line. *)
Definition serialization (multiValue : bool) (result : val) : list string :=
  match result with
  | VArray items => if multiValue then omap line_of items else omap line_of [result]
  | _ => omap line_of [result]
  end.

(** Lines as they are written: each followed by a newline. *)
Definition lines_out (lines : list string) : list chunk :=
  concat ((fun l => [Str l; Str LF]) <$> lines).

End Transformers.

(** ** Step results *)

Module Result.
Import JS.

(** The collaborators the step result is written against: the path
    template evaluator [TT.eval], [Path.extname], and the chunks in which a
    read stream delivers the bytes of a file. *)
Class Platform := {
  TT_eval : string -> val -> string;
  Path_extname : string -> string;
  FS_read : list byte -> list chunk
}.

(** Supported MIME types for cache files. *)
Definition MIMETypes : list (string * string) :=
  [ (".json", "application/json");
    (".jsonl", "application/x-jsonlines");
    (".zip", "application/zip") ].
Definition DefaultMIMEType : string := "application/octet-stream".

Definition mime_lookup (ext : string) : option string :=
  snd <$> List.find (fun kv => String.eqb (fst kv) ext) MIMETypes.

(** A step function [fn( vars, outs, ins )]: [fn_body vars ins] is the
    sequence of chunks it writes to [outs] before it ends it, given the
    chunks [ins] delivers ([None] when there is no input stream).
    [fn_id] tells the functions apart in the record of invocations. *)
Record stepfn := mkStepFn {
  fn_id : nat;
  fn_body : val -> option (list chunk) -> list chunk
}.

(** The file system and the record of the step functions invoked so far. *)
Record world := mkWorld {
  files : gmap string (list byte);
  invoked : list nat
}.

(** The stream made by [Through( write, end )] in [_output]: [fouts] is
    the path of the cache file its [write] copies to, if there is one,
    [queued] the chunks passed to [this.queue], in order, [ended] whether
    [null] was queued. *)
Record through := mkThrough {
  fouts : option string;
  queued : list chunk;
  ended : bool
}.

(** What [readable()] returns. *)
Inductive stream :=
| FileStream (path : option string)   (* FS.createReadStream( this._path ) *)
| ThroughStream (outs : through).

(** A platform to run the definitions on: path templates without
    variables, no file extensions, a file read in one chunk. *)
Definition plain : Platform :=
  {| TT_eval := fun path vars => path;
     Path_extname := fun path => "";
     FS_read := fun content => match content with [] => [] | _ => [Buf content] end |}.

(** Step functions to run a pipeline with: one that writes two chunks,
    and one that copies its input. *)
Definition source : stepfn :=
  {| fn_id := 1;
     fn_body := fun vars ins => [Str "one"; Buf (list_byte_of_string "two")] |}.

Definition copy : stepfn :=
  {| fn_id := 2; fn_body := fun vars ins => default [] ins |}.

(** A world with no file, and one with a single file; no step function
    was invoked yet. *)
Definition empty_world : world := {| files := ∅; invoked := [] |}.

Definition world_with (path : string) (content : list byte) : world :=
  {| files := <[path := content]> ∅; invoked := [] |}.

Section StepResult.
Context `{Platform}.

(** [_input] is used only through its method [readable( vars )]. *)
Record StepResult := mkStepResult {
  _path : option string;
  ext : option string;
  mimeType : option string;
  _vars : val;
  _fn : stepfn;
  _input : option (val -> world -> stream * world)
}.

(** [new StepResult( path, vars, fn, input )]; a [path] that is not
    given or empty is falsy. *)
Definition new (path : option string) (vars : val) (fn : stepfn)
    (input : option (val -> world -> stream * world)) : StepResult :=
  match path with
  | Some p =>
      if String.eqb p "" then
        {| _path := None; ext := None; mimeType := None;
           _vars := vars; _fn := fn; _input := input |}
      else
        let path' := if truthy_value vars then TT_eval p vars else p in
        let ext' := Path_extname path' in
        {| _path := Some path'; ext := Some ext';
           mimeType := Some (default DefaultMIMEType (mime_lookup ext'));
           _vars := vars; _fn := fn; _input := input |}
  | None =>
      {| _path := None; ext := None; mimeType := None;
         _vars := vars; _fn := fn; _input := input |}
  end.

Definition toJSON (r : StepResult) : option string := _path r.

(** [exists( path )] on the file system of the world. *)
Definition exists_ (path : string) (w : world) : bool :=
  bool_decide (is_Some (files w !! path)).

Definition _cached (r : StepResult) (w : world) : bool :=
  match _path r with
  | None => false
  | Some path => exists_ path w
  end.

(** [_output()]: with a path, [FS.createWriteStream] opens the cache
    file, empty. *)
Definition _output (r : StepResult) (w : world) : through * world :=
  match _path r with
  | Some path =>
      ({| fouts := Some path; queued := []; ended := false |},
       {| files := <[path := []]> (files w); invoked := invoked w |})
  | None =>
      ({| fouts := None; queued := []; ended := false |}, w)
  end.

(** [outs.write( data )]: the [write] function given to [Through]
    copies the chunk to the cache file and queues it.  Once [null] was
    queued the stream takes no more, and the file is closed. *)
Definition write (data : chunk) (ow : through * world) : through * world :=
  let '(outs, w) := ow in
  if ended outs then ow
  else
    ({| fouts := fouts outs; queued := queued outs ++ [data]; ended := false |},
     match fouts outs with
     | Some path =>
         {| files := <[path := default [] (files w !! path) ++ bytes data]> (files w);
            invoked := invoked w |}
     | None => w
     end).

(** [outs.end()]: the [end] function given to [Through]. *)
Definition end_ (ow : through * world) : through * world :=
  let '(outs, w) := ow in
  ({| fouts := fouts outs; queued := queued outs; ended := true |}, w).

(** The chunks a stream delivers to its reader. *)
Definition chunks (s : stream) (w : world) : list chunk :=
  match s with
  | FileStream path => FS_read (default [] (path ≫= fun p => files w !! p))
  | ThroughStream outs => queued outs
  end.

(** [ins = await this._input.readable( this._vars )], when there is an
    input. *)
Definition input (r : StepResult) (w : world) : option stream * world :=
  match _input r with
  | Some input => let '(s, w') := input (_vars r) w in (Some s, w')
  | None => (None, w)
  end.

(** [this._fn( this._vars, outs, ins )], followed until the function has
    ended [outs]. *)
Definition call_fn (r : StepResult) (outs : through) (ins : option stream)
    (w : world) : through * world :=
  let w' := {| files := files w; invoked := invoked w ++ [fn_id (_fn r)] |} in
  let written := fn_body (_fn r) (_vars r) ((fun s => chunks s w') <$> ins) in
  end_ (foldl (fun ow d => write d ow) (outs, w') written).

(** [readable()], followed to the end of the stream it returns: on a
    miss the step function is invoked and everything it writes has
    gone through [outs].  A step runs after the step before it; two
    steps that write one path at the same time are not described. *)
Definition readable (r : StepResult) (w : world) : stream * world :=
  if _cached r w then (FileStream (_path r), w)
  else
    let '(ins, w1) := input r w in
    let '(outs, w2) := _output r w1 in
    let '(outs', w3) := call_fn r outs ins w2 in
    (ThroughStream outs', w3).

(** What a readable stream emits to its listeners. *)
Inductive event :=
| data (d : chunk)
| end_of_data
| error (err : Error).

(** The calls made on the response [res]. *)
Inductive res_call :=
| res_set (headers : list (string * string))
| res_write (d : chunk)
| res_sendStatus (status : Z)
| res_end.

(** The three listeners [send] installs; their state is [writeStarted]
    and the calls made on [res] so far.  The call to the logger in the
    ['error'] listener does not reach [res] and is left out. *)
Definition on_event (headers : list (string * string))
    (st : bool * list res_call) (ev : event) : bool * list res_call :=
  let '(writeStarted, res) := st in
  match ev with
  | data d =>
      if (0 <? chunk_length d)%nat then
        if negb writeStarted
        then (true, res ++ [res_set headers; res_write d])
        else (writeStarted, res ++ [res_write d])
      else st
  | end_of_data =>
      if negb writeStarted
      then (writeStarted, res ++ [res_sendStatus 204; res_end])
      else (writeStarted, res ++ [res_end])
  | error err =>
      if writeStarted then (writeStarted, res ++ [res_end])
      else if String.eqb (code err) "ENOENT"
           then (writeStarted, res ++ [res_sendStatus 404; res_sendStatus 500])
           else (writeStarted, res ++ [res_sendStatus 500])
  end.

(** [send( res, headers )]: [emitted] is what the stream returned by
    [readable()] emits; the result is the calls made on [res]. *)
Definition send (r : StepResult) (w : world) (headers : list (string * string))
    (emitted : list event) : list res_call * world :=
  let '(ins, w') := readable r w in
  (snd (foldl (on_event headers) (false, []) emitted), w').

End StepResult.

(** Two results to run the definitions with, on the platform [plain]: one
    without a cache path and one with the cache path [cache/a.txt]. *)
Definition plain_result : StepResult :=
  new (H := plain) None VUndefined source None.

Definition cache_result : StepResult :=
  new (H := plain) (Some "cache/a.txt") VUndefined source None.

End Result.

(** ** Steps and pipelines ([lib/pipeline.js]) *)

Module Pipeline.
Import JS Result.

Section Pipeline.
Context `{Platform}.
(** [Path.join]. *)
Variable Path_join : string -> string -> string.

#[warnings="-register-all"]
Inductive Step := mkStep {
  _fn : stepfn;
  _cachePath : option string;
  _prevStep : option Step
}.

(** [Step.readable( vars )], which is [this.invoke( vars ).readable()]:
    the result is built from the fields of the step, the step before it
    being its input. *)
Fixpoint readable (s : Step) (vars : val) {struct s} : world -> stream * world :=
  Result.readable
    (Result.new (_cachePath s) vars (_fn s)
       match _prevStep s with
       | Some prev => Some (readable prev)
       | None => None
       end).

Definition invoke (s : Step) (vars : val) : StepResult :=
  Result.new (_cachePath s) vars (_fn s) (readable <$> _prevStep s).

(** The steps of a chain, the first step first: the function and the
    cache path of each. *)
Fixpoint steps (s : Step) : list (stepfn * option string) :=
  match _prevStep s with
  | Some prev => steps prev
  | None => []
  end ++ [(_fn s, _cachePath s)].

(** The step functions of a chain, the first step first. *)
Fixpoint fns (s : Step) : list nat :=
  match _prevStep s with
  | Some prev => fns prev
  | None => []
  end ++ [fn_id (_fn s)].

(** The cache files of a chain for one invocation: the resolved paths of
    its steps that have one. *)
Fixpoint paths (s : Step) (vars : val) : list string :=
  match _prevStep s with
  | Some prev => paths prev vars
  | None => []
  end ++ match _path (invoke s vars) with
         | Some p => [p]
         | None => []
         end.

Record Pipeline := mkPipeline {
  _cacheDir : string;
  _init : list val -> result val;
  _lastStep : option Step
}.

(** [new Pipeline( cacheDir )]; the default init function returns
    [undefined]. *)
Definition new (cacheDir : string) : Pipeline :=
  {| _cacheDir := cacheDir; _init := fun _ => Ok VUndefined; _lastStep := None |}.

Definition init (f : list val -> result val) (p : Pipeline) : Pipeline :=
  {| _cacheDir := _cacheDir p; _init := f; _lastStep := _lastStep p |}.

Definition step (fn : stepfn) (cachePath : option string) (p : Pipeline) : Pipeline :=
  let cachePath' :=
    match cachePath with
    | Some c => if String.eqb c "" then cachePath else Some (Path_join (_cacheDir p) c)
    | None => None
    end in
  {| _cacheDir := _cacheDir p; _init := _init p;
     _lastStep := Some (mkStep fn cachePath' (_lastStep p)) |}.

Definition open (fn : stepfn) (cachePath : option string) (p : Pipeline) : Pipeline :=
  step fn cachePath p.

(** What the function returned by [done] gives: [false], or what [fn]
    makes of the result of the last step. *)
Inductive invocation (A : Type) :=
| NoContent
| Content (a : A).
Arguments NoContent {A}.
Arguments Content {A} a.

(** [done( fn )]: an error when the pipeline has no step, else the
    function that invokes the pipeline. *)
Definition done {A} (fn : val -> StepResult -> A) (p : Pipeline)
    : result (list val -> result (invocation A)) :=
  match _lastStep p with
  | None => Err (mkError "" "Pipeline must have at least one processing step")
  | Some lastStep =>
      Ok (fun arguments =>
            bind (_init p arguments) (fun vars =>
              match vars with
              | VBool false => Ok NoContent
              | _ => Ok (Content (fn vars (invoke lastStep vars)))
              end))
  end.

(** The default argument of [done]. *)
Definition done_default : val -> StepResult -> StepResult := fun vars result => result.

End Pipeline.

Arguments NoContent {A}.
Arguments Content {A} a.

(** A [Path.join] for paths that need no normalizing. *)
Definition slash_join (dir path : string) : string := dir +:+ "/" +:+ path.

(** A pipeline of two steps, both cached, under the directory [cache], and
    its last step. *)
Definition two_steps : Pipeline :=
  step slash_join copy (Some "b.txt")
    (open slash_join source (Some "a.txt") (new "cache")).

Definition second_step : Step :=
  mkStep copy (Some "cache/b.txt") (Some (mkStep source (Some "cache/a.txt") None)).

Definition first_step : Step := mkStep source (Some "cache/a.txt") None.
End Pipeline.

(** * Properties *)

(** ** The record parser *)

Import JS Parsers.

Section ParserFacts.
Context {H : Type}.
Variable process : string -> H -> outcome * H.
Variable separator : Z.

Local Abbreviation parser := (@parser H).
Local Abbreviation microtask := (microtask process).
Local Abbreviation drain := (drain process).
Local Abbreviation append := (append separator).
Local Abbreviation cut := (cut separator).
Local Abbreviation records := (records separator).
Local Abbreviation loaded := (loaded separator).
Local Abbreviation scan := (scan separator).

Implicit Types (st : parser) (data : chunk) (n m : nat).

(** *** The job queue *)

Lemma microtask_idle st : pending st = [] -> microtask st = st.
Proof. unfold Parsers.microtask. by intros ->. Qed.

Lemma iter_microtask_idle n st : pending st = [] -> Nat.iter n microtask st = st.
Proof.
  intros Hq. induction n as [|n IH]; [done|].
  simpl. rewrite IH. by apply microtask_idle.
Qed.

Lemma iter_microtask_add n m st :
  Nat.iter (n + m) microtask st = Nat.iter m microtask (Nat.iter n microtask st).
Proof. rewrite Nat.add_comm. apply Nat.iter_add. Qed.

Lemma turns_app rs rs' : turns (rs ++ rs') = turns rs + turns rs'.
Proof.
  induction rs as [|[]]; simpl; lia.
Qed.

Lemma turns_bound rs : turns rs <= 2 * length rs.
Proof. induction rs as [|[]]; simpl; lia. Qed.

Lemma microtask_turns st :
  pending st <> [] -> turns (pending (microtask st)) < turns (pending st).
Proof.
  unfold Parsers.microtask. destruct (pending st) as [|r rest]; [done|]. intros _.
  destruct (broken st).
  - destruct r; simpl; lia.
  - destruct r as [line|e|]; simpl; try lia.
    destruct (process line (handler st)) as [[] h]; simpl; try lia.
    rewrite turns_app. simpl. lia.
Qed.

Lemma iter_microtask_empties n st :
  turns (pending st) <= n -> pending (Nat.iter n microtask st) = [].
Proof.
  revert st. induction n as [|n IH]; intros st Hn.
  - simpl. destruct (pending st) as [|[]]; simpl in *; [done|lia..].
  - rewrite Nat.iter_succ_r.
    destruct (decide (pending st = [])) as [Hq|Hq].
    + rewrite microtask_idle by done. apply IH. rewrite Hq. simpl. lia.
    + apply IH. pose proof (microtask_turns st Hq). lia.
Qed.

(** The queue runs empty: [drain] leaves no callback behind. *)
Lemma drain_empties st : pending (drain st) = [].
Proof. apply iter_microtask_empties, turns_bound. Qed.

Lemma iter_microtask_stable n m st :
  pending (Nat.iter n microtask st) = [] -> n <= m ->
  Nat.iter m microtask st = Nat.iter n microtask st.
Proof.
  intros Hq Hle. replace m with (n + (m - n)) by lia.
  rewrite iter_microtask_add. by apply iter_microtask_idle.
Qed.

Lemma drain_microtask st : drain (microtask st) = drain st.
Proof.
  unfold Parsers.drain.
  set (a := 2 * length (pending (microtask st))).
  set (b := 2 * length (pending st)).
  rewrite <- (iter_microtask_stable b (S a + b) st);
    [|apply drain_empties|lia].
  change (S a + b) with (S (a + b)). rewrite Nat.iter_succ_r.
  symmetry. apply iter_microtask_stable; [|lia].
  apply iter_microtask_empties, turns_bound.
Qed.

Lemma drain_iter n st : drain (Nat.iter n microtask st) = drain st.
Proof.
  induction n as [|n IH]; [done|]. simpl. by rewrite drain_microtask.
Qed.

(** *** The loop of [append] *)

Lemma slice_prefix (pre rest : list byte) i :
  i <= length pre -> slice (pre ++ rest) i (length pre) = drop i pre.
Proof.
  intros Hi. unfold slice. rewrite drop_app_le by done.
  apply take_app_length'. rewrite length_drop. lia.
Qed.

Lemma cut_app cur (x y : list byte) :
  cut cur (x ++ y) =
    let '(r1, t1) := cut cur x in let '(r2, t2) := cut t1 y in (r1 ++ r2, t2).
Proof.
  revert cur. induction x as [|b x IH]; intros cur; simpl.
  - by destruct (cut cur y).
  - destruct (byteZ b =? separator)%Z.
    + rewrite IH. destruct (cut [] x) as [r1 t1]. by destruct (cut t1 y).
    + apply IH.
Qed.

(** The bytes left after the last separator hold no separator. *)
Lemma cut_rest cur (input : list byte) :
  cut [] cur = ([], cur) -> cut [] (snd (cut cur input)) = ([], snd (cut cur input)).
Proof.
  revert cur. induction input as [|b input IH]; intros cur Hcur; simpl; [done|].
  destruct (byteZ b =? separator)%Z eqn:Hb.
  - specialize (IH [] eq_refl). by destruct (cut [] input).
  - apply IH. rewrite cut_app, Hcur. simpl. by rewrite Hb.
Qed.

Lemma scan_incomplete (rest pre : list byte) i lines end_ :
  i <= length pre ->
  scan false (pre ++ rest) end_ rest i (length pre) lines =
    (length (pre ++ rest) - length (snd (cut (drop i pre) rest)),
     lines ++ (string_of_list_byte <$> fst (cut (drop i pre) rest)))
  /\ drop (length (pre ++ rest) - length (snd (cut (drop i pre) rest))) (pre ++ rest)
     = snd (cut (drop i pre) rest).
Proof.
  revert pre i lines. induction rest as [|b rest IH]; intros pre i lines Hi.
  - simpl. rewrite !app_nil_r, length_drop.
    by replace (length pre - (length pre - i)) with i by lia.
  - rewrite (cons_middle b pre rest), (assoc_L (++)).
    cbn [Parsers.scan Parsers.cut]. rewrite andb_false_l, orb_false_r.
    replace (S (length pre)) with (length (pre ++ [b])) by (rewrite length_app; simpl; lia).
    destruct (byteZ b =? separator)%Z.
    + rewrite <- (assoc_L (++)), <- cons_middle, slice_prefix by done.
      rewrite (cons_middle b pre rest), (assoc_L (++)).
      destruct (IH (pre ++ [b]) (length (pre ++ [b])) (lines ++ [string_of_list_byte (drop i pre)]))
        as [IH1 IH2]; [done|].
      rewrite drop_all in IH1, IH2. rewrite IH1.
      destruct (cut [] rest) as [rs t]. simpl in *.
      split; [|done]. f_equal. by rewrite <- (assoc_L (++) lines).
    + destruct (IH (pre ++ [b]) i lines) as [IH1 IH2]; [rewrite length_app; lia|].
      rewrite (drop_app_le pre [b] i Hi) in IH1, IH2. by rewrite IH1.
Qed.

Lemma scan_complete (rest pre : list byte) i lines :
  i <= length pre -> rest <> [] ->
  snd (scan true (pre ++ rest) (Z.of_nat (length (pre ++ rest)) - 1) rest i (length pre) lines)
  = lines ++ (string_of_list_byte <$>
                (fst (cut (drop i pre) rest) ++ last_record (snd (cut (drop i pre) rest)))).
Proof.
  revert pre i lines. induction rest as [|b rest IH]; intros pre i lines Hi Hne; [done|].
  cbn [Parsers.scan Parsers.cut].
  destruct rest as [|b' rest].
  - replace (Z.of_nat (length pre) =? Z.of_nat (length (pre ++ [b])) - 1)%Z with true
      by (symmetry; apply Z.eqb_eq; rewrite length_app; simpl; lia).
    rewrite andb_true_l, orb_true_r. simpl. rewrite slice_prefix by done.
    destruct (byteZ b =? separator)%Z; simpl.
    + done.
    + unfold last_record. destruct (drop i pre ++ [b]) eqn:E.
      * by destruct (drop i pre).
      * by rewrite <- E, removelast_last.
  - replace (Z.of_nat (length pre) =? Z.of_nat (length (pre ++ b :: b' :: rest)) - 1)%Z
      with false
      by (symmetry; apply Z.eqb_neq; rewrite length_app; simpl; lia).
    rewrite andb_false_r, orb_false_r.
    rewrite (cons_middle b pre (b' :: rest)), (assoc_L (++)).
    replace (S (length pre)) with (length (pre ++ [b])) by (rewrite length_app; simpl; lia).
    destruct (byteZ b =? separator)%Z.
    + rewrite <- (assoc_L (++)), <- cons_middle, slice_prefix by done.
      rewrite (cons_middle b pre (b' :: rest)), (assoc_L (++)).
      rewrite IH by done. rewrite drop_all.
      destruct (cut [] (b' :: rest)) as [rs t]. simpl.
      by rewrite <- (assoc_L (++)).
    + rewrite IH by (rewrite ?length_app; done || lia).
      by rewrite drop_app_le by done.
Qed.

(** *** [append] on a parser that is still processing *)

Lemma append_data st data :
  processing st = true -> truthy data = true ->
  append data st =
    {| buffer := snd (cut [] (buffer st ++ bytes data)); processing := true;
       pending := pending st ++
         (OnProcess <$> (string_of_list_byte <$> fst (cut [] (buffer st ++ bytes data))));
       broken := broken st; handler := handler st; calls := calls st;
       returned := returned st |}.
Proof.
  intros Hp Ht. unfold Parsers.append. rewrite Hp, Ht. cbn [negb].
  set (b := buffer st ++ bytes data).
  destruct (scan_incomplete b [] 0 [] (Z.of_nat (length b) - 1) (Nat.le_0_l _))
    as [E1 E2].
  simpl in E1, E2. rewrite E1, E2. done.
Qed.

Lemma append_close st data :
  processing st = true -> truthy data = false ->
  append data st =
    {| buffer := buffer st; processing := false;
       pending := (pending st ++
         (OnProcess <$> (string_of_list_byte <$>
            (fst (cut [] (buffer st)) ++ last_record (snd (cut [] (buffer st)))))))
         ++ [OnResolve];
       broken := broken st; handler := handler st; calls := calls st;
       returned := returned st |}.
Proof.
  intros Hp Ht. unfold Parsers.append. rewrite Hp, Ht. cbn [negb].
  destruct (buffer st) as [|b0 b] eqn:Hb.
  - done.
  - pose proof (scan_complete (b0 :: b) [] 0 [] (Nat.le_0_l _) ltac:(done)) as E.
    cbn [app length drop] in E |- *.
    destruct (Parsers.scan _ _ _ _ _ _ _ _) as [i lines]. simpl in E. by rewrite E.
Qed.

Lemma append_stopped st data : processing st = false -> append data st = st.
Proof. intros Hp. unfold Parsers.append. by rewrite Hp. Qed.

(** All the chunks of a stream, none of them falsy, leave the complete
    records of their concatenation on the chain and the rest of it in the
    buffer, however the stream is cut into chunks. *)
Lemma appends_chunks (chunks : list chunk) h :
  Forall (fun data => truthy data = true) chunks ->
  foldl (fun st data => append data st) (start h) chunks =
    {| buffer := snd (cut [] (concat (bytes <$> chunks))); processing := true;
       pending := OnProcess <$>
         (string_of_list_byte <$> fst (cut [] (concat (bytes <$> chunks))));
       broken := None; handler := h; calls := []; returned := Unsettled |}.
Proof.
  induction chunks as [|data chunks IH] using rev_ind; intros Hall; [done|].
  apply Forall_app in Hall as [Hall Hdata]. apply List.Forall_inv in Hdata.
  rewrite foldl_snoc, IH by done. rewrite append_data by done. cbn [buffer pending
    broken handler calls returned].
  rewrite fmap_app, concat_app. simpl. rewrite app_nil_r.
  set (x := concat (bytes <$> chunks)).
  rewrite (cut_app [] x (bytes data)), (cut_app [] (snd (cut [] x)) (bytes data)).
  rewrite (cut_rest [] x eq_refl).
  destruct (cut [] x) as [r1 t1]. simpl.
  destruct (cut t1 (bytes data)) as [r2 t2]. simpl.
  by rewrite !fmap_app.
Qed.

Lemma appends_emits (chunks : list chunk) h :
  Forall (fun data => truthy data = true) chunks ->
  foldl (fun st data => append data st) (start h) (emits chunks)
  = loaded h (concat (bytes <$> chunks)).
Proof.
  intros Hall. unfold emits. rewrite foldl_snoc, appends_chunks by done.
  rewrite append_close by done. cbn [buffer pending broken handler calls returned].
  unfold Parsers.loaded, Parsers.records.
  set (x := concat (bytes <$> chunks)).
  rewrite (cut_rest [] x eq_refl).
  destruct (cut [] x) as [rs t]. simpl.
  by rewrite !fmap_app.
Qed.

(** *** Callbacks and arrivals commute *)

(** As long as [process] does not throw, a callback touches nothing
    [append] reads: running it before or after an arrival makes no
    difference. *)
Lemma microtask_append data st :
  never_throws process -> pending st <> [] ->
  microtask (append data st) = append data (microtask st).
Proof.
  intros Hnt Hne. destruct st as [buf proc pend brk h cs ret]. simpl in Hne.
  destruct pend as [|r rest]; [done|]. clear Hne.
  assert (forall line, exists o h', process line h = (o, h') /\ forall e, o <> Throws e)
    as Hcase.
  { intros line. pose proof (Hnt line h) as Hline.
    destruct (process line h) as [o h']. by exists o, h'. }
  unfold Parsers.microtask. simpl.
  destruct brk as [e0|]; [|destruct r as [line|e|]].
  2: destruct (Hcase line) as (o & h' & Hpl & Ho); rewrite Hpl; destruct o;
       [| |by destruct (Ho e)].
  all: destruct proc; [|rewrite !append_stopped by done; simpl; try rewrite Hpl; done].
  all: unfold Parsers.append; simpl.
  all: destruct (truthy data); simpl.
  all: destruct (Parsers.scan _ _ _ _ _ _ _ _) as [i lines]; simpl; try done.
  all: by rewrite Hpl.
Qed.

Lemma drain_appends_microtask (events : list chunk) st :
  never_throws process ->
  drain (foldl (fun st data => append data st) (microtask st) events)
  = drain (foldl (fun st data => append data st) st events).
Proof.
  intros Hnt. revert st. induction events as [|data events IH]; intros st; simpl.
  - apply drain_microtask.
  - destruct (decide (pending st = [])) as [Hq|Hq].
    + by rewrite microtask_idle.
    + rewrite <- microtask_append by done. apply IH.
Qed.

(** With a [process] that does not throw, the final state does not depend
    on when the callbacks run between the arrivals. *)
Lemma deliver_any_schedule ticks (events : list chunk) st :
  never_throws process ->
  deliver process separator ticks events st
  = drain (foldl (fun st data => append data st) st events).
Proof.
  intros Hnt. revert ticks st.
  induction events as [|data events IH]; intros ticks st; simpl; [done|].
  rewrite IH. generalize (hd 0 ticks). intros n.
  induction n as [|n IHn]; [done|].
  simpl. by rewrite drain_appends_microtask.
Qed.

Lemma fieldParser_loaded ticks (chunks : list chunk) h :
  never_throws process ->
  Forall (fun data => truthy data = true) chunks ->
  fieldParser process separator ticks chunks h
  = drain (loaded h (concat (bytes <$> chunks))).
Proof.
  intros Hnt Hall. unfold fieldParser.
  by rewrite deliver_any_schedule, appends_emits.
Qed.

(** *** A [process] that accepts every record *)

Lemma always_never : always_returns process -> never_throws process.
Proof. intros Hr line h e. by rewrite Hr. Qed.

Lemma drain_processes (lines : list string) st :
  always_returns process ->
  pending st = (OnProcess <$> lines) ++ [OnResolve] -> broken st = None ->
  calls (drain st) = calls st ++ lines
  /\ returned (drain st) = settle (returned st) Resolved
  /\ broken (drain st) = None.
Proof.
  intros Hr. revert st. induction lines as [|line lines IH]; intros st Hp Hb.
  - rewrite <- drain_microtask. unfold Parsers.microtask. rewrite Hp, Hb. simpl.
    by rewrite app_nil_r.
  - rewrite <- drain_microtask.
    assert (exists h', microtask st =
              {| buffer := buffer st; processing := processing st;
                 pending := (OnProcess <$> lines) ++ [OnResolve]; broken := None;
                 handler := h'; calls := calls st ++ [line];
                 returned := returned st |}) as [h' ->].
    { unfold Parsers.microtask. rewrite Hp, Hb. simpl.
      pose proof (Hr line (handler st)) as Hline.
      destruct (process line (handler st)) as [o h']. simpl in Hline. subst o.
      by exists h'. }
    match goal with |- context [drain ?st'] =>
      destruct (IH st' eq_refl eq_refl) as (-> & -> & ->) end.
    simpl. by rewrite <- (assoc_L (++)).
Qed.

Lemma deliver_two ticks (d1 d2 : chunk) st :
  deliver process separator ticks [d1; d2] st
  = drain (append d2 (Nat.iter (hd 0 ticks) microtask (append d1 st))).
Proof. simpl. apply drain_iter. Qed.

(** With a [process] that accepts every record, [process] is called on
    the records of the whole input, in order, and the promise resolves. *)
Lemma fieldParser_accepting ticks (chunks : list chunk) h :
  always_returns process ->
  Forall (fun data => truthy data = true) chunks ->
  calls (fieldParser process separator ticks chunks h)
    = records (concat (bytes <$> chunks))
  /\ returned (fieldParser process separator ticks chunks h) = Resolved.
Proof.
  intros Hr Hall. rewrite fieldParser_loaded by auto using always_never.
  destruct (drain_processes (records (concat (bytes <$> chunks)))
              (loaded h (concat (bytes <$> chunks))) Hr eq_refl eq_refl)
    as (-> & -> & _).
  done.
Qed.

End ParserFacts.

Lemma bytes_Buf (chunks : list (list byte)) :
  concat (bytes <$> (Buf <$> chunks)) = concat chunks.
Proof. induction chunks as [|c chunks IH]; simpl; [done|]. by f_equal. Qed.

Lemma accept_always_returns : always_returns accept.
Proof. done. Qed.

Lemma rejects_on_second_never_throws : never_throws rejects_on_second.
Proof. intros line count e. unfold rejects_on_second. simpl. by destruct (count =? 1)%nat. Qed.

(** An empty string is falsy: as a chunk it is taken for the end of the
    input, like the call without an argument that ['close'] makes. *)
Lemma append_empty_string {H} (separator : Z) (st : @parser H) :
  append separator (Str "") st = append separator Absent st.
Proof. done. Qed.



(** Every way of cutting a byte sequence into buffers gives the calls of
    the sequence in one buffer. *)
Lemma fieldParser_chunking_buffers {H} (process : string -> H -> outcome * H)
    (separator : Z) (chunks : list (list byte)) (ticks ticks' : list nat) (h : H) :
  never_throws process ->
  fieldParser process separator ticks (Buf <$> chunks) h
  = fieldParser process separator ticks' [Buf (concat chunks)] h.
Proof.
  intros Hnt. rewrite !fieldParser_loaded; try done.
  - rewrite bytes_Buf. simpl. by rewrite app_nil_r.
  - by repeat constructor.
  - induction chunks; by constructor.
Qed.


(** C1. The input [a,b,c] with separator [,]: [process] is called on [a],
    [b] and the empty string, the line cut for the trailing record stops in
    front of its last byte.  An empty input gives no call, and the promise
    resolves. *)
Theorem fieldParser_trailing_record (ticks : list nat) :
  calls (fieldParser accept COMMA ticks [Str "a,b,c"] tt) = ["a"; "b"; ""]
  /\ returned (fieldParser accept COMMA ticks [Str "a,b,c"] tt) = Resolved
  /\ calls (fieldParser accept COMMA ticks [] tt) = []
  /\ returned (fieldParser accept COMMA ticks [] tt) = Resolved.
Proof.
  destruct (fieldParser_accepting accept COMMA ticks [Str "a,b,c"] tt
              accept_always_returns) as [-> ->]; [by repeat constructor|].
  destruct (fieldParser_accepting accept COMMA ticks [] tt
              accept_always_returns) as [-> ->]; [by constructor|].
  by vm_compute.
Qed.

(** C3. Five records arrive in one chunk and [process] fails on the
    second.  When it throws, [process] is still called on all five records.
    When it returns a rejected promise, [process] is called twice, and the
    promise [fieldParser] returned is never settled. *)
Theorem fieldParser_error_on_second_record (ticks : list nat) :
  calls (fieldParser throws_on_second COMMA ticks [Str "a,b,c,d,e,"] 0)
    = ["a"; "b"; "c"; "d"; "e"]
  /\ calls (fieldParser rejects_on_second COMMA ticks [Str "a,b,c,d,e,"] 0) = ["a"; "b"]
  /\ returned (fieldParser rejects_on_second COMMA ticks [Str "a,b,c,d,e,"] 0) = Unsettled.
Proof.
  split.
  - unfold fieldParser, emits. cbn [app]. rewrite deliver_two.
    generalize (hd 0 ticks). intros n.
    destruct (decide (n < 11)) as [Hn|Hn].
    + do 11 (destruct n as [|n]; [by vm_compute|]). lia.
    + rewrite (iter_microtask_stable throws_on_second 11 n); [by vm_compute|by vm_compute|lia].
  - rewrite fieldParser_loaded;
      [by vm_compute|apply rejects_on_second_never_throws|by repeat constructor].
Qed.

(** When [process] throws and the callbacks run before ['close'] arrives,
    the promise is rejected with the error; when ['close'] arrives first, its
    [resolve] is on the chain in front of the [reject], and the promise
    resolves. *)
Example fieldParser_throw_settles :
  returned (fieldParser throws_on_second COMMA [20] [Str "a,b,c,d,e,"] 0) = Rejected boom
  /\ returned (fieldParser throws_on_second COMMA [] [Str "a,b,c,d,e,"] 0) = Resolved.
Proof. by vm_compute. Qed.

(** ** The hook registry *)

Import Hooks.

Section HooksFacts.
Implicit Types (R : registry) (ns stage name : string) (h : hook).

Lemma lookup_registerHook R ns stage name h :
  registerHook ns stage name h R !! ns ≫= (fun hooks => hooks !! hook_id stage name)
  = Some (registered R ns stage name ++ [h]).
Proof.
  unfold registerHook, registered.
  destruct (R !! ns) as [hookNS|] eqn:Hns; simpl.
  - destruct (hookNS !! hook_id stage name) as [hooks|] eqn:Hid; simpl;
      by rewrite lookup_insert_eq; simpl; rewrite lookup_insert_eq.
  - rewrite lookup_empty. by rewrite lookup_insert_eq; simpl; rewrite lookup_insert_eq.
Qed.

(** [registerHook] adds the hook after those registered before. *)
Lemma registered_registerHook R ns stage name h :
  registered (registerHook ns stage name h R) ns stage name
  = registered R ns stage name ++ [h].
Proof.
  unfold registered at 1. by rewrite lookup_registerHook.
Qed.

Lemma getCallHooks_registered R ns stage name :
  forall value vars,
    call R (getCallHooks R ns stage name) value vars
    = run_hooks (registered R ns stage name) value vars.
Proof.
  intros value vars. unfold getCallHooks, registered.
  destruct (R !! ns ≫= _) as [[|h [|h' hooks]]|] eqn:E; simpl.
  - by rewrite E.
  - by destruct (h value vars).
  - by rewrite E.
  - done.
Qed.

End HooksFacts.



(** Two hooks run in the order of their registration, and a hook registered
    after the function was obtained is part of a sequence of hooks. *)
Example hooks_in_registration_order :
  let R2 := registerHook "ns" "pre" "op" (suffix "2") (registerHook "ns" "pre" "op" (suffix "1") ∅) in
  let c := getCallHooks R2 "ns" "pre" "op" in
  call R2 c (VString "x") VNull = Ok (VString "x12")
  /\ call (registerHook "ns" "pre" "op" (suffix "3") R2) c (VString "x") VNull
     = Ok (VString "x123").
Proof. by vm_compute. Qed.

(** ** The transformers *)

Import Transformers.

Section TransformerFacts.
Variable Hooks : registry.
Variable op : val -> result val.
Variables (preHooks postHooks : callable) (vars : val).

Lemma lines_out_app (l1 l2 : list string) :
  lines_out (l1 ++ l2) = lines_out l1 ++ lines_out l2.
Proof. unfold lines_out. by rewrite fmap_app, concat_app. Qed.

(** One element of a sequence is written by the rule of a single value. *)
Lemma write_item_line_of (item : val) :
  write_item item = lines_out (omap line_of [item]).
Proof. by destruct item. Qed.

Lemma write_items_line_of (items : list val) :
  concat (map write_item items) = lines_out (omap line_of items).
Proof.
  induction items as [|item items IH]; [done|].
  change (item :: items) with ([item] ++ items).
  by rewrite omap_app, lines_out_app, <- IH, <- write_item_line_of.
Qed.

Lemma write_result_serialization (multiValue : bool) (result : val) :
  write_result multiValue result = lines_out (serialization multiValue result).
Proof.
  destruct result, multiValue; try done.
  apply write_items_line_of.
Qed.

Lemma write_items_defined (items : list val) :
  concat (map write_item items) = concat (write_line <$> List.filter defined items).
Proof.
  induction items as [|item items IH]; [done|].
  destruct item; simpl; by rewrite ?IH.
Qed.

End TransformerFacts.

(** C6. What [process] writes for a record is the serialization the design
    document describes: nothing for [undefined], a string as it is, any other
    value JSON-encoded, each followed by a newline; under [multiValue] the
    elements of an array one by one, by the same rule. *)
Theorem process_serialization (Hooks : registry) (op : val -> result val)
    (preHooks postHooks : callable) (vars : val) (multiValue : bool)
    (line : string) (outs : list chunk) (result : val) :
  process_result Hooks op preHooks postHooks vars line = Ok result ->
  process Hooks op preHooks postHooks vars multiValue line outs
  = (Returns, outs ++ lines_out (serialization multiValue result)).
Proof.
  intros Hres. unfold process. rewrite Hres.
  by rewrite write_result_serialization.
Qed.


Lemma process_serialization_witness :
  process_result ∅ two_values Identity Identity VNull "r"
    = Ok (VArray [VString "x"; VObject [("y", VNumber 1)]])
  /\ process ∅ two_values Identity Identity VNull true "r" []
     = (Returns,
        [] ++ lines_out (serialization true (VArray [VString "x"; VObject [("y", VNumber 1)]]))).
Proof.
  split; [reflexivity|].
  apply (process_serialization ∅ two_values Identity Identity VNull true "r" []).
  reflexivity.
Defined.

(** The operation that returns [[ "x", { "y": 1 } ]] writes two lines under
    [multiValue], and one line, the array, without it. *)
Example multiValue_two_lines :
  written (snd (process ∅ two_values Identity Identity VNull true "r" []))
    = "x" +:+ LF +:+ "{" +:+ dquote +:+ "y" +:+ dquote +:+ ":1}" +:+ LF
  /\ written (snd (process ∅ two_values Identity Identity VNull false "r" []))
    = "[" +:+ dquote +:+ "x" +:+ dquote +:+ ",{" +:+ dquote +:+ "y" +:+ dquote +:+ ":1}]" +:+ LF.
Proof. by vm_compute. Qed.


Example multiValue_undefined_element :
  written (snd (process ∅ with_undefined Identity Identity VNull true "r" []))
    = "r" +:+ LF +:+ "null" +:+ LF.
Proof. by vm_compute. Qed.




(** ** Step results and pipelines *)

Section ResultFacts.
Import Result.
Context `{Platform}.

Implicit Types (r : StepResult) (w : world) (p : string).

Lemma readable_cached r w p :
  _path r = Some p -> is_Some (files w !! p) ->
  readable r w = (FileStream (Some p), w).
Proof.
  intros Hp Hfile. unfold readable, _cached, exists_. rewrite Hp.
  by rewrite bool_decide_eq_true_2.
Qed.

(** The chunks written through the stream of [_output] reach the cache
    file and the queue in the order they are written. *)
Lemma writes_tee (written : list chunk) (outs : through) w p content :
  ended outs = false -> fouts outs = Some p -> files w !! p = Some content ->
  foldl (fun ow d => write d ow) (outs, w) written
  = ({| fouts := Some p; queued := queued outs ++ written; ended := false |},
     {| files := <[p := content ++ concat (bytes <$> written)]> (files w);
        invoked := invoked w |}).
Proof.
  revert outs w content.
  induction written as [|d written IH]; intros outs w content He Hf Hc.
  - simpl. rewrite !app_nil_r, insert_id by done.
    destruct outs, w; simpl in *; by subst.
  - cbn [foldl]. unfold write at 2. rewrite He, Hf, Hc. simpl.
    rewrite (IH _ _ (content ++ bytes d));
      [|done|done|by simpl; rewrite lookup_insert_eq].
    simpl. by rewrite insert_insert_eq, <- !(assoc_L (++)).
Qed.

Lemma readable_miss r w p :
  _path r = Some p -> files w !! p = None ->
  exists ins w1,
    input r w = (ins, w1)
    /\ let w2 := {| files := <[p := []]> (files w1);
                    invoked := invoked w1 ++ [fn_id (_fn r)] |} in
       let written := fn_body (_fn r) (_vars r) ((fun s => chunks s w2) <$> ins) in
       readable r w
       = (ThroughStream {| fouts := Some p; queued := written; ended := true |},
          {| files := <[p := concat (bytes <$> written)]> (files w1);
             invoked := invoked w1 ++ [fn_id (_fn r)] |}).
Proof.
  intros Hp Hnone. unfold readable, _cached, exists_. rewrite Hp.
  rewrite bool_decide_eq_false_2 by (rewrite Hnone; by intros [? ?]).
  destruct (input r w) as [ins w1]. exists ins, w1. split; [done|].
  unfold _output, call_fn. rewrite Hp. simpl.
  erewrite writes_tee; [|done|done|by simpl; rewrite lookup_insert_eq].
  simpl. by rewrite insert_insert_eq.
Qed.

Lemma send_calls r w headers (emitted : list event) :
  fst (send r w headers emitted) = snd (foldl (on_event headers) (false, []) emitted).
Proof. unfold send. by destruct (readable r w). Qed.

End ResultFacts.

Section PipelineFacts.
Import Result Pipeline.
Context `{Platform}.

(** [Step.readable( vars )] is [this.invoke( vars ).readable()]. *)
Lemma readable_invoke (s : Step) (vars : val) (w : world) :
  Pipeline.readable s vars w = Result.readable (invoke s vars) w.
Proof. destruct s as [fn cachePath [prev|]]; done. Qed.

Lemma done_invokes_last (P : Pipeline) (lastStep : Step) (arguments : list val)
    (vars : val) :
  _lastStep P = Some lastStep -> _init P arguments = Ok vars -> vars <> VBool false ->
  exists run,
    done done_default P = Ok run
    /\ run arguments = Ok (Content (invoke lastStep vars)).
Proof.
  intros Hlast Hinit Hvars. unfold done. rewrite Hlast. eexists. split; [done|].
  simpl. rewrite Hinit. simpl. destruct vars as [| |[]| | | |]; done.
Qed.

End PipelineFacts.

(** C2. A step result whose cache file exists is read from that file, and
    nothing else happens: no step function is invoked, neither its own nor
    one of a step before it.  So for a pipeline whose last step has its cache
    file: invoking it gives the result of the last step, and reading that
    result leaves the record of invoked functions as it was. *)
Theorem readable_cache_hit `{Result.Platform} :
  (forall (r : Result.StepResult) (w : Result.world) (p : string),
     Result._path r = Some p -> is_Some (Result.files w !! p) ->
     Result.readable r w = (Result.FileStream (Some p), w))
  /\ (forall (P : Pipeline.Pipeline) (lastStep : Pipeline.Step) (arguments : list val)
        (vars : val) (w : Result.world) (p : string),
        Pipeline._lastStep P = Some lastStep ->
        Pipeline._init P arguments = Ok vars -> vars <> VBool false ->
        Result._path (Pipeline.invoke lastStep vars) = Some p ->
        is_Some (Result.files w !! p) ->
        exists run result,
          Pipeline.done Pipeline.done_default P = Ok run
          /\ run arguments = Ok (Pipeline.Content result)
          /\ Result.readable result w = (Result.FileStream (Some p), w)
          /\ Result.invoked (snd (Result.readable result w)) = Result.invoked w).
Proof.
  split.
  - apply @readable_cached.
  - intros P lastStep arguments vars w p Hlast Hinit Hvars Hp Hfile.
    destruct (done_invokes_last P lastStep arguments vars Hlast Hinit Hvars)
      as (run & Hdone & Hrun).
    exists run, (Pipeline.invoke lastStep vars).
    by rewrite (readable_cached _ w p Hp Hfile).
Qed.

Lemma readable_cache_hit_witness :
  (Pipeline._lastStep Pipeline.two_steps = Some Pipeline.second_step
   /\ Pipeline._init Pipeline.two_steps [] = Ok VUndefined
   /\ VUndefined <> VBool false
   /\ Result._path (Pipeline.invoke (H := Result.plain) Pipeline.second_step VUndefined)
      = Some "cache/b.txt"
   /\ is_Some (Result.files (Result.world_with "cache/b.txt" (list_byte_of_string "kept"))
                 !! "cache/b.txt"))
  /\ exists run result,
       Pipeline.done (H := Result.plain) Pipeline.done_default Pipeline.two_steps = Ok run
       /\ run [] = Ok (Pipeline.Content result)
       /\ Result.readable (H := Result.plain) result (Result.world_with "cache/b.txt" (list_byte_of_string "kept"))
          = (Result.FileStream (Some "cache/b.txt"),
             Result.world_with "cache/b.txt" (list_byte_of_string "kept"))
       /\ Result.invoked
            (snd (Result.readable (H := Result.plain) result
                    (Result.world_with "cache/b.txt" (list_byte_of_string "kept"))))
          = Result.invoked (Result.world_with "cache/b.txt" (list_byte_of_string "kept")).
Proof.
  assert (is_Some (Result.files (Result.world_with "cache/b.txt" (list_byte_of_string "kept"))
                     !! "cache/b.txt")) as Hfile
    by (eexists; reflexivity).
  split.
  - split; [reflexivity|]. split; [reflexivity|]. split; [discriminate|].
    split; [reflexivity|exact Hfile].
  - apply (proj2 (@readable_cache_hit Result.plain) Pipeline.two_steps Pipeline.second_step
             [] VUndefined (Result.world_with "cache/b.txt" (list_byte_of_string "kept"))
             "cache/b.txt");
      [reflexivity|reflexivity|discriminate|reflexivity|exact Hfile].
Defined.



(** A pipeline of two steps with no cache file: both step functions are
    invoked, the first one first, and each file holds what its step wrote.
    With the file of the second step in place, no function is invoked. *)
Example two_steps_miss_and_hit :
  Result.invoked
    (snd (Pipeline.readable (H := Result.plain) Pipeline.second_step VUndefined
            Result.empty_world)) = [1; 2]
  /\ Result.files
       (snd (Pipeline.readable (H := Result.plain) Pipeline.second_step VUndefined
               Result.empty_world)) !! "cache/a.txt" = Some (list_byte_of_string "onetwo")
  /\ Result.files
       (snd (Pipeline.readable (H := Result.plain) Pipeline.second_step VUndefined
               Result.empty_world)) !! "cache/b.txt" = Some (list_byte_of_string "onetwo")
  /\ Result.invoked
       (snd (Pipeline.readable (H := Result.plain) Pipeline.second_step VUndefined
               (Result.world_with "cache/b.txt" (list_byte_of_string "kept")))) = [].
Proof. by vm_compute. Qed.

Section SendFacts.
Import Result.
Context `{Platform}.
Variables (r : StepResult) (w : world) (headers : list (string * string)).

(** The headers go out with the first chunk that is not empty. *)
Lemma send_first_chunk (d d' : chunk) :
  chunk_length d = 0 -> 0 < chunk_length d' ->
  fst (send r w headers [data d; data d'; data d'; end_of_data])
  = [res_set headers; res_write d'; res_write d'; res_end].
Proof.
  intros Hd Hd'. apply Nat.ltb_lt in Hd'.
  rewrite send_calls. simpl. rewrite Hd. simpl. rewrite Hd'. simpl. by rewrite Hd'.
Qed.

(** A stream that ends without a byte gives the status 204. *)
Lemma send_no_content (d : chunk) :
  chunk_length d = 0 ->
  fst (send r w headers [data d; end_of_data]) = [res_sendStatus 204; res_end].
Proof. intros Hd. rewrite send_calls. simpl. by rewrite Hd. Qed.

(** An error other than a missing file, before anything was sent, gives
    the status 500 and nothing else. *)
Lemma send_other_error (err : Error) :
  code err <> "ENOENT" ->
  fst (send r w headers [error err]) = [res_sendStatus 500].
Proof.
  intros Hcode. rewrite send_calls. simpl.
  by destruct (String.eqb_spec (code err) "ENOENT").
Qed.

(** An error after the first bytes ends the response and sends no
    status. *)
Lemma send_error_after_data (d : chunk) (err : Error) :
  0 < chunk_length d ->
  fst (send r w headers [data d; error err]) = [res_set headers; res_write d; res_end].
Proof.
  intros Hd. apply Nat.ltb_lt in Hd. rewrite send_calls. simpl. by rewrite Hd.
Qed.

End SendFacts.

(** C8. The stream fails with [ENOENT] before anything was sent: [send]
    calls [res.sendStatus( 404 )] and then [res.sendStatus( 500 )]. *)
Theorem send_missing_file `{Result.Platform} (r : Result.StepResult) (w : Result.world)
    (headers : list (string * string)) (message : string) :
  fst (Result.send r w headers [Result.error {| code := "ENOENT"; message := message |}])
  = [Result.res_sendStatus 404; Result.res_sendStatus 500].
Proof. by rewrite send_calls. Qed.

(** * Further properties *)

(** ** The record parser: what [process] sees and how the promise ends *)

Section ParserSequence.
Context {H : Type}.
Variable process : string -> H -> outcome * H.
Variable separator : Z.

Local Abbreviation parser := (@parser H).
Local Abbreviation microtask := (microtask process).
Local Abbreviation drain := (drain process).
Local Abbreviation append := (append separator).
Local Abbreviation cut := (cut separator).
Local Abbreviation records := (records separator).
Local Abbreviation loaded := (loaded separator).
Local Abbreviation replay := (replay process).

Implicit Types (st : parser) (data : chunk).

(** On a rejected chain every callback is passed over. *)
Lemma drain_broken (rs : list reaction) st e :
  pending st = rs -> broken st = Some e ->
  drain st = {| buffer := buffer st; processing := processing st; pending := [];
                broken := Some e; handler := handler st; calls := calls st;
                returned := returned st |}.
Proof.
  revert st. induction rs as [|r rs IH]; intros st Hp Hb.
  - unfold Parsers.drain. rewrite Hp. destruct st; simpl in *. by subst.
  - rewrite <- drain_microtask.
    assert (microtask st =
              {| buffer := buffer st; processing := processing st; pending := rs;
                 broken := Some e; handler := handler st; calls := calls st;
                 returned := returned st |}) as ->
      by (unfold Parsers.microtask; by rewrite Hp, Hb).
    match goal with |- drain ?st' = _ => by rewrite (IH st' eq_refl eq_refl) end.
Qed.

Lemma drain_replay (lines : list string) st :
  never_throws process ->
  pending st = (OnProcess <$> lines) ++ [OnResolve] -> broken st = None ->
  calls (drain st) = calls st ++ fst (fst (replay lines (handler st)))
  /\ handler (drain st) = snd (replay lines (handler st))
  /\ returned (drain st)
     = if snd (fst (replay lines (handler st)))
       then settle (returned st) Resolved else returned st.
Proof.
  intros Hnt. revert st. induction lines as [|line lines IH]; intros st Hp Hb.
  - rewrite <- drain_microtask. unfold Parsers.microtask. rewrite Hp, Hb. simpl.
    by rewrite app_nil_r.
  - rewrite <- drain_microtask. unfold Parsers.microtask. rewrite Hp, Hb.
    cbn [fmap list_fmap app Parsers.replay].
    pose proof (Hnt line (handler st)) as Hline.
    destruct (process line (handler st)) as [[|e|e] h']; simpl in Hline.
    + match goal with |- context [drain ?st'] =>
        destruct (IH st' eq_refl eq_refl) as (-> & -> & ->) end.
      simpl. destruct (Parsers.replay process lines h') as [[called ok] h''].
      simpl. by rewrite <- (assoc_L (++)).
    + erewrite drain_broken; [|done..]. done.
    + by destruct (Hline e).
Qed.

(** X1. With a [process] that does not throw, [process] is called on the
    records of the input in their order, one call after the other, and on
    none after a call whose promise is rejected; the returned promise
    resolves when every call fulfilled and is never settled otherwise: it is
    never rejected. *)
Theorem fieldParser_sequence (ticks : list nat) (chunks : list chunk) (h : H) :
  never_throws process ->
  Forall (fun data => truthy data = true) chunks ->
  calls (fieldParser process separator ticks chunks h)
    = fst (fst (replay (records (concat (bytes <$> chunks))) h))
  /\ handler (fieldParser process separator ticks chunks h)
    = snd (replay (records (concat (bytes <$> chunks))) h)
  /\ returned (fieldParser process separator ticks chunks h)
    = if snd (fst (replay (records (concat (bytes <$> chunks))) h))
      then Resolved else Unsettled.
Proof.
  intros Hnt Hall. rewrite fieldParser_loaded by done.
  apply (drain_replay _ (loaded h (concat (bytes <$> chunks))) Hnt eq_refl eq_refl).
Qed.

(** *** The records and the input *)

Lemma byteZ_inj (a b : byte) : byteZ a = byteZ b -> a = b.
Proof.
  unfold byteZ. intros Hab. apply N2Z.inj in Hab.
  pose proof (Byte.of_to_N a) as Ha. rewrite Hab, Byte.of_to_N in Ha. congruence.
Qed.

(** [cut] drops the separators and nothing else. *)
Lemma cut_concat (input cur : list byte) (b : byte) :
  byteZ b = separator ->
  concat ((fun r => r ++ [b]) <$> fst (cut cur input)) ++ snd (cut cur input)
  = cur ++ input.
Proof.
  intros Hb. revert cur. induction input as [|c input IH]; intros cur; simpl.
  - by rewrite app_nil_r.
  - destruct (byteZ c =? separator)%Z eqn:Hc.
    + apply Z.eqb_eq in Hc. rewrite <- Hb in Hc. apply byteZ_inj in Hc. subst c.
      specialize (IH []). destruct (cut [] input) as [rs t]. simpl in *.
      rewrite <- IH. by rewrite <- !(assoc_L (++)).
    + rewrite IH. by rewrite <- (assoc_L (++)).
Qed.

Lemma cut_no_separator (input cur : list byte) :
  Forall (fun b => byteZ b <> separator) cur ->
  Forall (Forall (fun b => byteZ b <> separator)) (fst (cut cur input))
  /\ Forall (fun b => byteZ b <> separator) (snd (cut cur input)).
Proof.
  revert cur. induction input as [|c input IH]; intros cur Hcur; simpl; [by split|].
  destruct (byteZ c =? separator)%Z eqn:Hc.
  - destruct (IH [] ltac:(constructor)) as [IH1 IH2].
    destruct (cut [] input) as [rs t]. simpl in *. split; [by constructor|done].
  - apply IH. apply Forall_app. split; [done|].
    constructor; [|constructor]. by apply Z.eqb_neq.
Qed.

Lemma removelast_no_separator (t : list byte) :
  Forall (fun b => byteZ b <> separator) t ->
  Forall (fun b => byteZ b <> separator) (removelast t).
Proof.
  induction t as [|a [|a' t] IH]; intros Ht; simpl; [done|constructor|].
  inversion Ht; subst. constructor; [done|]. by apply IH.
Qed.

(** No line the parser cuts holds a separator. *)
Lemma records_no_separator (input : list byte) :
  Forall (fun line => Forall (fun b => byteZ b <> separator) (list_byte_of_string line))
    (records input).
Proof.
  unfold Parsers.records.
  destruct (cut_no_separator input [] ltac:(constructor)) as [Hrs Ht].
  destruct (cut [] input) as [rs t]. simpl in *.
  apply Forall_fmap, Forall_app. split.
  - eapply Forall_impl; [exact Hrs|]. intros r Hr. simpl.
    by rewrite list_byte_of_string_of_list_byte.
  - destruct t as [|a t]; [constructor|]. constructor; [|constructor].
    simpl. rewrite list_byte_of_string_of_list_byte.
    by apply (removelast_no_separator (a :: t)).
Qed.

(** An input that is empty or ends with the separator is the lines the
    parser cuts from it, each followed by the separator. *)
Lemma records_lossless (input : list byte) (b : byte) :
  byteZ b = separator ->
  input = [] \/ (exists init, input = init ++ [b]) ->
  concat ((fun line => list_byte_of_string line ++ [b]) <$> records input) = input.
Proof.
  intros Hb Hend.
  assert (snd (cut [] input) = []) as Ht.
  { destruct Hend as [->|[init ->]]; [done|].
    rewrite cut_app. destruct (cut [] init) as [r1 t1]. simpl.
    by rewrite Hb, Z.eqb_refl. }
  pose proof (cut_concat input [] b Hb) as Hcat.
  unfold Parsers.records. destruct (cut [] input) as [rs t]. simpl in *. subst t.
  rewrite !app_nil_r in *. rewrite <- Hcat at 1. f_equal.
  rewrite <- list_fmap_compose. apply list_fmap_ext. intros i r _. simpl.
  by rewrite list_byte_of_string_of_list_byte.
Qed.

Lemma replay_prefix (lines : list string) (h : H) :
  fst (fst (replay lines h)) `prefix_of` lines.
Proof.
  revert h. induction lines as [|line lines IH]; intros h; simpl; [done|].
  destruct (process line h) as [[|e|e] h'].
  - specialize (IH h'). destruct (Parsers.replay process lines h') as [[called ok] h''].
    simpl in *. by apply prefix_cons.
  - simpl. apply prefix_cons, prefix_nil.
  - simpl. apply prefix_cons, prefix_nil.
Qed.

Lemma replay_always_returns (lines : list string) (h : H) :
  always_returns process ->
  replay lines h = (lines, true, foldl (fun h line => snd (process line h)) h lines).
Proof.
  intros Hr. revert h. induction lines as [|line lines IH]; intros h; simpl; [done|].
  pose proof (Hr line h) as Hline.
  destruct (process line h) as [o h']. simpl in *. subst o. by rewrite IH.
Qed.



(** *** The buffer *)

Lemma buffer_microtask st : buffer (microtask st) = buffer st.
Proof.
  unfold Parsers.microtask. destruct (pending st) as [|r rest]; [done|].
  destruct (broken st); [done|]. destruct r as [line| |]; [|done..].
  by destruct (process line (handler st)) as [[] h'].
Qed.

Lemma buffer_drain st : buffer (drain st) = buffer st.
Proof.
  unfold Parsers.drain. generalize (2 * length (pending st)). intros n.
  induction n as [|n IH]; [done|]. simpl. by rewrite buffer_microtask.
Qed.

(** X4. After the chunks of a stream that has not closed yet, the buffer
    holds the bytes that follow the last separator of what has arrived, and
    so no separator: the records already cut are not kept. *)
Theorem buffer_is_rest (ticks : list nat) (chunks : list chunk) (h : H) :
  never_throws process ->
  Forall (fun data => truthy data = true) chunks ->
  buffer (deliver process separator ticks chunks (start h))
    = snd (cut [] (concat (bytes <$> chunks)))
  /\ Forall (fun b => byteZ b <> separator)
       (buffer (deliver process separator ticks chunks (start h))).
Proof.
  intros Hnt Hall.
  rewrite deliver_any_schedule, buffer_drain, appends_chunks by done. simpl.
  split; [done|]. by apply cut_no_separator.
Qed.

End ParserSequence.

Lemma accept_never_throws : never_throws accept.
Proof. intros line h e. simpl. discriminate. Qed.

Lemma fieldParser_sequence_witness :
  never_throws rejects_on_second
  /\ Forall (fun data => truthy data = true) [Str "a,b,"; Buf (list_byte_of_string "c,")]
  /\ calls (fieldParser rejects_on_second COMMA [1]
              [Str "a,b,"; Buf (list_byte_of_string "c,")] 0)
     = fst (fst (replay rejects_on_second
                   (records COMMA
                      (concat (bytes <$> [Str "a,b,"; Buf (list_byte_of_string "c,")]))) 0))
  /\ handler (fieldParser rejects_on_second COMMA [1]
              [Str "a,b,"; Buf (list_byte_of_string "c,")] 0)
     = snd (replay rejects_on_second
              (records COMMA
                 (concat (bytes <$> [Str "a,b,"; Buf (list_byte_of_string "c,")]))) 0)
  /\ returned (fieldParser rejects_on_second COMMA [1]
              [Str "a,b,"; Buf (list_byte_of_string "c,")] 0)
     = if snd (fst (replay rejects_on_second
                      (records COMMA
                         (concat (bytes <$> [Str "a,b,"; Buf (list_byte_of_string "c,")]))) 0))
       then Resolved else Unsettled.
Proof.
  assert (Forall (fun data => truthy data = true)
            [Str "a,b,"; Buf (list_byte_of_string "c,")]) as Hall by (repeat constructor).
  split; [exact rejects_on_second_never_throws|]. split; [exact Hall|].
  exact (fieldParser_sequence rejects_on_second COMMA [1]
           [Str "a,b,"; Buf (list_byte_of_string "c,")] 0
           rejects_on_second_never_throws Hall).
Defined.



Lemma buffer_is_rest_witness :
  never_throws accept
  /\ Forall (fun data => truthy data = true) [Str "a,b"; Str ",cd"]
  /\ buffer (deliver accept COMMA [1] [Str "a,b"; Str ",cd"] (start tt))
     = snd (cut COMMA [] (concat (bytes <$> [Str "a,b"; Str ",cd"])))
  /\ Forall (fun b => byteZ b <> COMMA)
       (buffer (deliver accept COMMA [1] [Str "a,b"; Str ",cd"] (start tt))).
Proof.
  assert (Forall (fun data => truthy data = true) [Str "a,b"; Str ",cd"]) as Hall
    by (repeat constructor).
  split; [exact accept_never_throws|]. split; [exact Hall|].
  exact (buffer_is_rest accept COMMA [1] [Str "a,b"; Str ",cd"] tt
           accept_never_throws Hall).
Defined.

(** ** The hook registry: keys, order and later registrations *)

Section HooksMore.
Implicit Types (R : registry) (ns stage name : string) (h : hook).

(** A registration leaves the hooks of every other place of the registry as
    they are. *)
Lemma registered_registerHook_other R ns stage name h ns' stage' name' :
  ns <> ns' \/ hook_id stage name <> hook_id stage' name' ->
  registered (registerHook ns stage name h R) ns' stage' name'
  = registered R ns' stage' name'.
Proof.
  intros Hne. unfold registered, registerHook.
  destruct (decide (ns = ns')) as [<-|Hns].
  - destruct Hne as [?|Hid]; [done|].
    destruct (R !! ns) as [hookNS|] eqn:E; simpl.
    + destruct (hookNS !! hook_id stage name);
        rewrite lookup_insert_eq; simpl; by rewrite lookup_insert_ne.
    + rewrite lookup_empty, lookup_insert_eq. simpl.
      by rewrite lookup_insert_ne, lookup_empty.
  - destruct (default ∅ (R !! ns) !! hook_id stage name); by rewrite lookup_insert_ne.
Qed.

Lemma hook_id_inj stage stage' name name' :
  stage = "pre" \/ stage = "post" -> stage' = "pre" \/ stage' = "post" ->
  hook_id stage name = hook_id stage' name' -> stage = stage' /\ name = name'.
Proof.
  unfold hook_id. intros [->| ->] [->| ->] Heq; simpl in Heq; by simplify_eq.
Qed.


Lemma run_hooks_app (hs1 hs2 : list hook) (value vars : val) :
  run_hooks (hs1 ++ hs2) value vars
  = bind (run_hooks hs1 value vars) (fun value' => run_hooks hs2 value' vars).
Proof.
  revert value. induction hs1 as [|h hs1 IH]; intros value; simpl; [done|].
  destruct (h value vars) as [value'|e]; simpl; [apply IH|done].
Qed.

Lemma registered_registerHooks R ns stage name (hs : list hook) :
  registered (foldl (fun R h => registerHook ns stage name h R) R hs) ns stage name
  = registered R ns stage name ++ hs.
Proof.
  revert R. induction hs as [|h hs IH]; intros R; simpl; [by rewrite app_nil_r|].
  by rewrite IH, registered_registerHook, <- (assoc_L (++)).
Qed.



End HooksMore.




(** ** The transformers: the output of a whole input *)

Section TransformerRuns.
Variable Hooks : registry.
Variable op : val -> result val.
Variables (ns name : string) (vars : val) (opts : options).

Local Abbreviation preHooks := (getCallHooks Hooks ns "pre" name).
Local Abbreviation postHooks := (getCallHooks Hooks ns "post" name).
Local Abbreviation multiValue_ := (default false (multiValue opts)).
Local Abbreviation separator_ := (default 0x0%Z (separator opts)).
Local Abbreviation process_ := (process Hooks op preHooks postHooks vars multiValue_).
Local Abbreviation result_of := (process_result Hooks op preHooks postHooks vars).

(** [process] is an async function: it does not throw. *)
Lemma process_never_throws : never_throws process_.
Proof.
  intros line outs e. unfold process. by destruct (process_result _ _ _ _ _ _).
Qed.

Lemma replay_process_success (lines : list string) (rs : list val) (outs : list chunk) :
  result_of <$> lines = Ok <$> rs ->
  replay process_ lines outs
  = (lines, true, outs ++ concat (write_result multiValue_ <$> rs)).
Proof.
  revert rs outs. induction lines as [|line lines IH]; intros [|r rs] outs Hrs;
    try done; simpl in *.
  - by rewrite app_nil_r.
  - injection Hrs as Hr Hrs. unfold process at 1. rewrite Hr.
    rewrite (IH rs _ Hrs). by rewrite <- (assoc_L (++)).
Qed.

Lemma replay_process_failure (before after : list string) (line : string)
    (rs : list val) (e : Error) (outs : list chunk) :
  result_of <$> before = Ok <$> rs -> result_of line = Err e ->
  replay process_ (before ++ line :: after) outs
  = (before ++ [line], false, outs ++ concat (write_result multiValue_ <$> rs)).
Proof.
  intros Hrs Hline. revert rs outs Hrs.
  induction before as [|l before IH]; intros [|r rs] outs Hrs; try done; simpl in *.
  - unfold process at 1. rewrite Hline. by rewrite app_nil_r.
  - injection Hrs as Hr Hrs. unfold process at 1. rewrite Hr.
    rewrite (IH rs _ Hrs). by rewrite <- (assoc_L (++)).
Qed.

Lemma recordTransformer_replayed (ticks : list nat) (ins outs : list chunk) :
  Forall (fun data => truthy data = true) ins ->
  calls (recordTransformer Hooks ticks ins outs op ns name vars opts)
    = fst (fst (replay process_ (records separator_ (concat (bytes <$> ins))) outs))
  /\ handler (recordTransformer Hooks ticks ins outs op ns name vars opts)
    = snd (replay process_ (records separator_ (concat (bytes <$> ins))) outs)
  /\ returned (recordTransformer Hooks ticks ins outs op ns name vars opts)
    = if snd (fst (replay process_ (records separator_ (concat (bytes <$> ins))) outs))
      then Resolved else Unsettled.
Proof.
  intros Hall. unfold recordTransformer, recordParser.
  rewrite fieldParser_loaded by auto using process_never_throws.
  apply (drain_replay process_ _ (loaded separator_ outs (concat (bytes <$> ins)))
           process_never_throws eq_refl eq_refl).
Qed.



End TransformerRuns.

Lemma bytes_echo_lines (lines : list string) :
  concat (bytes <$> concat (write_result false <$> (VString <$> lines)))
  = concat ((fun line => list_byte_of_string line ++ [Byte.x0a]) <$> lines).
Proof.
  induction lines as [|line lines IH]; [done|].
  cbn [fmap list_fmap concat write_result write_line text andb] in *.
  rewrite fmap_app, concat_app. simpl. by rewrite IH.
Qed.


(** ** Step results: misses, second reads, and what a chain touches *)

Section ResultMore.
Import Result.
Context `{Platform}.

Implicit Types (r : StepResult) (w : world) (p : string).

Lemma writes_pass (written : list chunk) (outs : through) w :
  ended outs = false -> fouts outs = None ->
  foldl (fun ow d => write d ow) (outs, w) written
  = ({| fouts := None; queued := queued outs ++ written; ended := false |}, w).
Proof.
  revert outs. induction written as [|d written IH]; intros outs He Hf.
  - simpl. rewrite app_nil_r. destruct outs; simpl in *; by subst.
  - cbn [foldl]. unfold write at 2. rewrite He, Hf.
    rewrite IH by done. simpl. by rewrite <- (assoc_L (++)).
Qed.

Lemma uncached_no_file r w p :
  _cached r w = false -> _path r = Some p -> files w !! p = None.
Proof.
  unfold _cached, exists_. intros Hc Hp. rewrite Hp in Hc.
  apply bool_decide_eq_false_1 in Hc.
  destruct (files w !! p) eqn:E; [|done]. destruct Hc. by eexists.
Qed.

(** A miss: the step function is invoked after the input was obtained, with
    the cache file, if there is one, opened and empty; what it writes is
    queued and, with a cache file, stored. *)
Lemma readable_uncached r w :
  _cached r w = false ->
  let w1 := snd (input r w) in
  let opened :=
    {| files := match _path r with
                | Some p => <[p := []]> (files w1)
                | None => files w1
                end;
       invoked := invoked w1 ++ [fn_id (_fn r)] |} in
  let written :=
    fn_body (_fn r) (_vars r) ((fun s => chunks s opened) <$> fst (input r w)) in
  readable r w
  = (ThroughStream {| fouts := _path r; queued := written; ended := true |},
     {| files := match _path r with
                 | Some p => <[p := concat (bytes <$> written)]> (files w1)
                 | None => files w1
                 end;
        invoked := invoked w1 ++ [fn_id (_fn r)] |}).
Proof.
  intros Hc. simpl. unfold readable. rewrite Hc.
  destruct (input r w) as [ins w1]. simpl.
  unfold _output, call_fn. destruct (_path r) as [p|]; simpl.
  - erewrite writes_tee; [|done|done|by simpl; rewrite lookup_insert_eq].
    simpl. by rewrite insert_insert_eq.
  - by rewrite writes_pass.
Qed.



End ResultMore.

Section ChainFacts.
Import Result Pipeline.
Context `{Platform}.

Lemma step_induction (P : Step -> Prop) :
  (forall fn cachePath, P (mkStep fn cachePath None)) ->
  (forall fn cachePath prev, P prev -> P (mkStep fn cachePath (Some prev))) ->
  forall s, P s.
Proof.
  intros Hfirst Hnext. fix IH 1. intros [fn cachePath [prev|]].
  - apply Hnext, IH.
  - apply Hfirst.
Qed.

Lemma new_fields (path : option string) (vars : val) (fn : stepfn)
    (input : option (val -> world -> stream * world)) :
  Result._fn (Result.new path vars fn input) = fn
  /\ _vars (Result.new path vars fn input) = vars
  /\ _input (Result.new path vars fn input) = input.
Proof. unfold Result.new. destruct path as [p|]; [destruct (String.eqb p "")|]; done. Qed.

Lemma input_invoke (s : Step) (vars : val) (w : world) :
  input (invoke s vars) w
  = match _prevStep s with
    | Some prev => (Some (fst (Pipeline.readable prev vars w)),
                    snd (Pipeline.readable prev vars w))
    | None => (None, w)
    end.
Proof.
  unfold input, invoke.
  destruct (new_fields (_cachePath s) vars (Pipeline._fn s)
              (Pipeline.readable <$> _prevStep s)) as (_ & -> & ->).
  destruct (_prevStep s) as [prev|]; simpl; [|done].
  by destruct (Pipeline.readable prev vars w).
Qed.

Lemma fn_invoke (s : Step) (vars : val) :
  Result._fn (invoke s vars) = Pipeline._fn s.
Proof. unfold invoke. apply new_fields. Qed.

(** What reading a chain does to the world when its last step is a miss. *)
Lemma readable_chain_miss (s : Step) (vars : val) (w : world) :
  _cached (invoke s vars) w = false ->
  let w1 := match _prevStep s with
            | Some prev => snd (Pipeline.readable prev vars w)
            | None => w
            end in
  invoked (snd (Pipeline.readable s vars w)) = invoked w1 ++ [fn_id (Pipeline._fn s)]
  /\ forall q, _path (invoke s vars) <> Some q ->
       files (snd (Pipeline.readable s vars w)) !! q = files w1 !! q.
Proof.
  intros Hc. simpl. rewrite readable_invoke, (readable_uncached _ w Hc).
  rewrite input_invoke, fn_invoke. simpl.
  split; [by destruct (_prevStep s)|].
  intros q Hq. destruct (_path (invoke s vars)) as [p|].
  - rewrite lookup_insert_ne by congruence. by destruct (_prevStep s).
  - by destruct (_prevStep s).
Qed.

Lemma paths_unfold (s : Step) (vars : val) (q : string) :
  q ∈ paths s vars <->
  (match _prevStep s with Some prev => q ∈ paths prev vars | None => False end)
  \/ _path (invoke s vars) = Some q.
Proof.
  destruct s as [fn cachePath [prev|]]; cbn [paths _prevStep];
    rewrite elem_of_app; destruct (_path _) as [p|];
    rewrite ?list_elem_of_singleton, ?elem_of_nil; intuition congruence.
Qed.

(** X13. Reading a chain of steps changes no file but the cache files of
    its own steps. *)
Theorem readable_writes_only_cache_files (s : Step) (vars : val) (w : world) (q : string) :
  q ∉ paths s vars ->
  files (snd (Pipeline.readable s vars w)) !! q = files w !! q.
Proof.
  revert w. induction s as [fn cachePath|fn cachePath prev IH] using step_induction;
    intros w Hq; rewrite paths_unfold in Hq; cbn [_prevStep] in Hq.
  - destruct (_cached (invoke (mkStep fn cachePath None) vars) w) eqn:Hc.
    + rewrite readable_invoke. unfold Result.readable. by rewrite Hc.
    + destruct (readable_chain_miss _ vars w Hc) as [_ Hfiles].
      rewrite Hfiles; [done|]. intros Hp. apply Hq. by right.
  - destruct (_cached (invoke (mkStep fn cachePath (Some prev)) vars) w) eqn:Hc.
    + rewrite readable_invoke. unfold Result.readable. by rewrite Hc.
    + destruct (readable_chain_miss _ vars w Hc) as [_ Hfiles].
      rewrite Hfiles; [|intros Hp; apply Hq; by right].
      cbn [_prevStep]. apply IH. intros Hin. apply Hq. by left.
Qed.

(** X14. When none of the cache files of a chain exists, reading the chain
    invokes the function of every step once, the first step first. *)
Theorem readable_runs_every_step (s : Step) (vars : val) (w : world) :
  (forall q, q ∈ paths s vars -> files w !! q = None) ->
  invoked (snd (Pipeline.readable s vars w)) = invoked w ++ fns s.
Proof.
  revert w. induction s as [fn cachePath|fn cachePath prev IH] using step_induction;
    intros w Hnone.
  - assert (_cached (invoke (mkStep fn cachePath None) vars) w = false) as Hc.
    { unfold _cached, exists_. destruct (_path _) as [p|] eqn:Hp; [|done].
      apply bool_decide_eq_false_2. rewrite (Hnone p); [by intros [? ?]|].
      apply paths_unfold. by right. }
    by destruct (readable_chain_miss _ vars w Hc) as [-> _].
  - assert (_cached (invoke (mkStep fn cachePath (Some prev)) vars) w = false) as Hc.
    { unfold _cached, exists_. destruct (_path _) as [p|] eqn:Hp; [|done].
      apply bool_decide_eq_false_2. rewrite (Hnone p); [by intros [? ?]|].
      apply paths_unfold. by right. }
    destruct (readable_chain_miss _ vars w Hc) as [-> _]. cbn [_prevStep fns].
    rewrite IH; [by rewrite <- (assoc_L (++))|].
    intros q Hq. apply Hnone, paths_unfold. by left.
Qed.


End ChainFacts.

(** ** Building and invoking a pipeline *)

Section BuilderFacts.
Import Result Pipeline.
Context `{Platform}.
Variable Path_join : string -> string -> string.

Lemma steps_step (fn : stepfn) (cachePath : option string) (P : Pipeline) :
  match _lastStep (step Path_join fn cachePath P) with
  | Some last => steps last
  | None => []
  end
  = match _lastStep P with Some last => steps last | None => [] end
    ++ [(fn, match cachePath with
             | Some c => if String.eqb c "" then cachePath
                         else Some (Path_join (_cacheDir P) c)
             | None => None
             end)].
Proof. unfold step. simpl. by destruct (_lastStep P). Qed.

(** X16. The steps of a pipeline are chained in the order they are added,
    the first one first, each with its cache path joined to the cache
    directory of the pipeline, a missing or empty cache path being left as it
    is. *)
Theorem pipeline_steps_in_order (cacheDir : string)
    (added : list (stepfn * option string)) :
  match _lastStep (foldl (fun P spec => step Path_join (fst spec) (snd spec) P)
                     (Pipeline.new cacheDir) added) with
  | Some last => steps last
  | None => []
  end
  = (fun spec =>
       (fst spec,
        match snd spec with
        | Some c => if String.eqb c "" then snd spec else Some (Path_join cacheDir c)
        | None => None
        end)) <$> added.
Proof.
  assert (forall P,
    match _lastStep (foldl (fun P spec => step Path_join (fst spec) (snd spec) P) P added)
    with Some last => steps last | None => [] end
    = match _lastStep P with Some last => steps last | None => [] end
      ++ ((fun spec =>
             (fst spec,
              match snd spec with
              | Some c => if String.eqb c "" then snd spec
                          else Some (Path_join (_cacheDir P) c)
              | None => None
              end)) <$> added)) as Hgen.
  { induction added as [|spec added IH]; intros P; simpl; [by rewrite app_nil_r|].
    rewrite IH, steps_step. by rewrite <- (assoc_L (++)). }
  by rewrite Hgen.
Qed.

(** The function [done] returns: it gives [NoContent] when the init
    function returns [false], fails with the error of the init function when
    that fails, and in every other case applies [fn] to the invocation
    variables and the result of the last step; without a step [done] itself
    fails. *)
Lemma done_invocation {A} (fn : val -> StepResult -> A) (P : Pipeline) :
  match _lastStep P with
  | None => exists e, done fn P = Err e
  | Some lastStep =>
      exists run,
        done fn P = Ok run
        /\ forall arguments,
             run arguments
             = match _init P arguments with
               | Err e => Err e
               | Ok (VBool false) => Ok NoContent
               | Ok vars => Ok (Content (fn vars (invoke lastStep vars)))
               end
  end.
Proof.
  unfold done. destruct (_lastStep P) as [lastStep|]; [|by eexists].
  eexists. split; [done|]. intros arguments. simpl.
  destruct (_init P arguments) as [vars|e]; [|done]. simpl.
  by destruct vars as [| |[]| | | |].
Qed.

End BuilderFacts.

Section SendStream.
Import Result.
Context `{Platform}.
Variable headers : list (string * string).

(** The chunks that are not empty. *)
Local Abbreviation sent := (List.filter (fun d => (0 <? chunk_length d)%nat)).

Lemma on_data_started (ds : list chunk) (res : list res_call) :
  foldl (on_event headers) (true, res) (data <$> ds)
  = (true, res ++ (res_write <$> sent ds)).
Proof.
  revert res. induction ds as [|d ds IH]; intros res; simpl; [by rewrite app_nil_r|].
  destruct (0 <? chunk_length d)%nat; simpl.
  - rewrite IH. by rewrite <- (assoc_L (++)).
  - apply IH.
Qed.

Lemma on_data_first (ds : list chunk) (res : list res_call) :
  foldl (on_event headers) (false, res) (data <$> ds)
  = match sent ds with
    | [] => (false, res)
    | _ => (true, res ++ res_set headers :: (res_write <$> sent ds))
    end.
Proof.
  revert res. induction ds as [|d ds IH]; intros res; simpl; [done|].
  destruct (0 <? chunk_length d)%nat; simpl.
  - rewrite on_data_started. by rewrite <- (assoc_L (++)).
  - apply IH.
Qed.

(** X17. A stream that delivers its chunks and ends: [send] sets the
    headers once, before the first write, writes the chunks that are not
    empty, in their order, and ends the response; when no chunk has a byte it
    sends the status 204 instead and ends the response. *)
Theorem send_stream (r : StepResult) (w : world) (ds : list chunk) :
  fst (send r w headers ((data <$> ds) ++ [end_of_data]))
  = match sent ds with
    | [] => [res_sendStatus 204; res_end]
    | _ => res_set headers :: (res_write <$> sent ds) ++ [res_end]
    end.
Proof.
  rewrite send_calls, foldl_app, on_data_first.
  by destruct (sent ds).
Qed.

End SendStream.

(** ** The record parser: a chunk that is falsy *)

Section ParserStops.
Context {H : Type}.
Variable process : string -> H -> outcome * H.
Variable separator : Z.

Lemma appends_stopped (events : list chunk) (st : @parser H) :
  processing st = false ->
  foldl (fun st data => append separator data st) st events = st.
Proof.
  intros Hp. induction events as [|data events IH]; simpl; [done|].
  by rewrite append_stopped.
Qed.

Lemma falsy_chunk (data : chunk) : truthy data = false -> data = Absent \/ data = Str "".
Proof.
  destruct data as [|s|b]; simpl; [by left| |done].
  intros Hs. right. f_equal. apply negb_false_iff in Hs. by apply String.eqb_eq.
Qed.

(** X18. A chunk that is falsy, the empty string, ends the input like
    ['close'] does: the parser ends as it does on the chunks in front of it,
    and what the stream emits after it is not parsed. *)
Theorem fieldParser_stops_at_falsy_chunk (ticks ticks' : list nat)
    (before rest : list chunk) (data : chunk) (h : H) :
  never_throws process ->
  Forall (fun data => truthy data = true) before -> truthy data = false ->
  deliver process separator ticks (before ++ data :: rest) (start h)
  = fieldParser process separator ticks' before h.
Proof.
  intros Hnt Hall Hdata.
  rewrite fieldParser_loaded, deliver_any_schedule by done.
  f_equal. rewrite foldl_app. cbn [foldl].
  assert (append separator data
            (foldl (fun st d => append separator d st) (start h) before)
          = loaded separator h (concat (bytes <$> before))) as ->.
  { rewrite <- (appends_emits separator before h Hall). unfold emits.
    rewrite foldl_app. cbn [foldl].
    by destruct (falsy_chunk data Hdata) as [-> | ->]. }
  by apply appends_stopped.
Qed.

End ParserStops.

Lemma fieldParser_stops_at_falsy_chunk_witness :
  never_throws accept
  /\ Forall (fun data => truthy data = true) [Str "a,b,"]
  /\ truthy (Str "") = false
  /\ deliver accept COMMA [1; 2] ([Str "a,b,"] ++ Str "" :: [Str "c,"; Absent]) (start tt)
     = fieldParser accept COMMA [] [Str "a,b,"] tt.
Proof.
  assert (Forall (fun data => truthy data = true) [Str "a,b,"]) as Hall
    by (repeat constructor).
  split; [exact accept_never_throws|]. split; [exact Hall|]. split; [reflexivity|].
  exact (fieldParser_stops_at_falsy_chunk accept COMMA [1; 2] [] [Str "a,b,"]
           [Str "c,"; Absent] (Str "") tt accept_never_throws Hall eq_refl).
Defined.

(** ** The properties above at concrete inputs *)






Lemma readable_writes_only_cache_files_witness :
  ("notes.txt" ∉ Pipeline.paths (H := Result.plain) Pipeline.second_step VUndefined)
  /\ Result.files
       (snd (Pipeline.readable (H := Result.plain) Pipeline.second_step VUndefined
               (Result.world_with "notes.txt" (list_byte_of_string "kept"))))
       !! "notes.txt"
     = Result.files (Result.world_with "notes.txt" (list_byte_of_string "kept"))
         !! "notes.txt".
Proof.
  assert ("notes.txt" ∉ (Pipeline.paths (H := Result.plain) Pipeline.second_step VUndefined))
    as Hq by (apply (bool_decide_unpack _); vm_compute; exact I).
  split; [exact Hq|].
  exact (@readable_writes_only_cache_files Result.plain Pipeline.second_step VUndefined
           (Result.world_with "notes.txt" (list_byte_of_string "kept")) "notes.txt" Hq).
Defined.

Lemma readable_runs_every_step_witness :
  (forall q, q ∈ (Pipeline.paths (H := Result.plain) Pipeline.second_step VUndefined) ->
             Result.files Result.empty_world !! q = None)
  /\ Result.invoked
       (snd (Pipeline.readable (H := Result.plain) Pipeline.second_step VUndefined
               Result.empty_world))
     = Result.invoked Result.empty_world ++ Pipeline.fns Pipeline.second_step.
Proof.
  assert (forall q,
            q ∈ (Pipeline.paths (H := Result.plain) Pipeline.second_step VUndefined) ->
            Result.files Result.empty_world !! q = None) as Hnone
    by (intros q _; reflexivity).
  split; [exact Hnone|].
  exact (@readable_runs_every_step Result.plain Pipeline.second_step VUndefined
           Result.empty_world Hnone).
Defined.

